(** * rivine: consensus retargeting, fork choice and signature validation

    A shallow embedding of
    - [types/signatures.go]: [InputSigHash], [sortedUnique], [validSignatures];
    - [modules/consensus/processedblock.go]: [heavierThan], [childDepth],
      [targetAdjustmentBase], [clampTargetAdjustment], [setChildTarget],
      [newChild];
    - [types/constants.go]: the three sets of chain constants.

    Go's fixed-width integers are integers of [Z] with the wrap-around written
    out ([uint64], [int64]); [*big.Rat] values, which Go keeps in lowest terms,
    are canonical rationals [Qc]; a panic is [None]. *)

From Stdlib Require Import ZArith QArith Qcanon Qround Lqa List Sorted Lia Bool String.
From stdpp Require Import base decidable option list gmap.

Local Open Scope Z_scope.

(** ** Machine integers *)

Module mach.

(** Conversion to [uint64], and the result of every [uint64] operation. *)
Definition uint64 (z : Z) : Z := z mod 2 ^ 64.

(** Conversion to [int64]: the low 64 bits read in two's complement. *)
Definition int64 (z : Z) : Z :=
  let w := z mod 2 ^ 64 in
  if w <? 2 ^ 63 then w else w - 2 ^ 64.

Definition is_uint64 (z : Z) : Prop := 0 <= z < 2 ^ 64.

(** Go's [int] on a 64-bit platform. *)
Definition is_int (z : Z) : Prop := - 2 ^ 63 <= z < 2 ^ 63.

End mach.

(** ** Package [math/big]: the rationals the consensus code builds *)

Module big.

(** [big.NewRat(a, b)]: panics when [b] is zero, otherwise the fraction in
    lowest terms with a positive denominator. *)
Definition NewRat (a b : Z) : option Qc :=
  if b =? 0 then None
  else Some (Q2Qc (Qmake (Z.sgn b * a) (Z.to_pos (Z.abs b)))).

(** [NewRat] at the non-zero literal denominators of the package-level
    constants. *)
Definition NewRat' (a b : Z) : Qc := default (Q2Qc 0) (NewRat a b).

(** [x.Cmp(y)]: -1, 0 or +1. *)
Definition RatCmp (x y : Qc) : Z :=
  match (x ?= y)%Qc with
  | Lt => -1
  | Eq => 0
  | Gt => 1
  end.

End big.

(** ** Package [types]: signatures.go *)

Module types.
Import mach big.

(** The sentinel errors of signatures.go, [ErrDoubleSpend] (declared beside
    the transaction type) and any other error value. *)
Inductive error : Type :=
| ErrEntropyKey
| ErrFrivolousSignature
| ErrInvalidPubKeyIndex
| ErrInvalidUnlockHashChecksum
| ErrMissingSignatures
| ErrPrematureSignature
| ErrPublicKeyOveruse
| ErrSortedUniqueViolation
| ErrUnlockHashWrongLen
| ErrDoubleSpend
| ErrOther (code : Z).

(** The [for _, elem := range elems[1:]] loop of [sortedUnique]:
    [None] when the loop returns [false], otherwise the final [biggest]. *)
Fixpoint sortedUnique_scan (biggest : Z) (rest : list Z) : option Z :=
  match rest with
  | [] => Some biggest
  | elem :: rest' =>
      if elem <=? biggest then None else sortedUnique_scan elem rest'
  end.

(** [func sortedUnique(elems []uint64, max int) bool] *)
Definition sortedUnique (elems : list Z) (max : Z) : bool :=
  match elems with
  | [] => true
  | e0 :: tl =>
      match sortedUnique_scan e0 tl with
      | None => false
      | Some biggest => if biggest >=? uint64 max then false else true
      end
  end.

(** [crypto.Hash] is [[32]byte]: the 256-bit value of its bytes. Output and
    block identifiers are hashes. *)
Definition Hash := Z.
Definition CoinOutputID := Hash.
Definition BlockStakeOutputID := Hash.
Definition BlockID := Hash.
Definition BlockHeight := Z.
Definition Timestamp := Z.
(** [Currency] wraps a non-negative [big.Int]. *)
Definition Currency := Z.

Record UnlockHash := mkUnlockHash {
  UnlockType : Z;
  UnlockHashBytes : Hash;
}.

Record CoinOutput := mkCoinOutput {
  co_Value : Currency;
  co_UnlockHash : UnlockHash;
}.

Record BlockStakeOutput := mkBlockStakeOutput {
  bso_Value : Currency;
  bso_UnlockHash : UnlockHash;
}.

Section transaction.
(** The unlocker carried by an input (an interface value in the source) and
    the entries of the signature list. *)
Context {InputLockProxy TransactionSignature : Type}.

Record CoinInput := mkCoinInput {
  ci_ParentID : CoinOutputID;
  ci_Unlocker : InputLockProxy;
}.

Record BlockStakeInput := mkBlockStakeInput {
  bsi_ParentID : BlockStakeOutputID;
  bsi_Unlocker : InputLockProxy;
}.

(** Modelled from the spec: the declaration of [Transaction] is not among the
    sources. Its fields are the six that signatures.go reads, and the
    [Signatures] list of the specification's data model. *)
Record Transaction := mkTransaction {
  CoinInputs : list CoinInput;
  CoinOutputs : list CoinOutput;
  BlockStakeInputs : list BlockStakeInput;
  BlockStakeOutputs : list BlockStakeOutput;
  MinerFees : list Currency;
  ArbitraryData : list Byte.byte;
  Signatures : list TransactionSignature;
}.

End transaction.

Arguments CoinInput : clear implicits.
Arguments BlockStakeInput : clear implicits.
Arguments Transaction : clear implicits.

(** The two methods signatures.go calls on an input's unlocker. [Unlock]
    returns Go's [error]: [None] is [nil]. *)
Class Unlocker (U Sg : Type) := {
  UnlockHashOf : U -> UnlockHash;
  Unlock : U -> Z -> Transaction U Sg -> option error;
}.

(** What [encoding.Encoder.Encode] writes for each type [InputSigHash]
    passes to it, and the digest [h.Sum] returns for the bytes written. *)
Class SigEncoding := {
  enc_uint64 : Z -> list Byte.byte;
  enc_OutputID : Hash -> list Byte.byte;
  enc_UnlockHash : UnlockHash -> list Byte.byte;
  enc_CoinOutputs : list CoinOutput -> list Byte.byte;
  enc_BlockStakeOutputs : list BlockStakeOutput -> list Byte.byte;
  enc_MinerFees : list Currency -> list Byte.byte;
  enc_ArbitraryData : list Byte.byte -> list Byte.byte;
  HashSum : list Byte.byte -> Hash;
}.

Section signatures.
Context {U Sg : Type} `{!Unlocker U Sg} `{!SigEncoding}.

(** [enc.Encode(v)]: the hash state is the list of bytes written so far. *)
Definition Encode {A : Type} (marshal : A -> list Byte.byte) (v : A)
    (h : list Byte.byte) : list Byte.byte :=
  h ++ marshal v.

(** [func (t Transaction) InputSigHash(inputIndex uint64) (hash crypto.Hash)] *)
Definition InputSigHash (t : Transaction U Sg) (inputIndex : Z) : Hash :=
  let h := [] in
  let h := Encode enc_uint64 inputIndex h in
  let h := fold_left (fun h ci =>
             Encode enc_UnlockHash (UnlockHashOf (ci_Unlocker ci))
               (Encode enc_OutputID (ci_ParentID ci) h))
             (CoinInputs t) h in
  let h := Encode enc_CoinOutputs (CoinOutputs t) h in
  let h := fold_left (fun h bsi =>
             Encode enc_UnlockHash (UnlockHashOf (bsi_Unlocker bsi))
               (Encode enc_OutputID (bsi_ParentID bsi) h))
             (BlockStakeInputs t) h in
  let h := Encode enc_BlockStakeOutputs (BlockStakeOutputs t) h in
  let h := Encode enc_MinerFees (MinerFees t) h in
  let h := Encode enc_ArbitraryData (ArbitraryData t) h in
  HashSum h.

(** The first [for index, ci := range t.CoinInputs] loop of
    [validSignatures], from position [index] on with the set [spendCoins]
    built so far. [None]: the loop ran to its end. *)
Fixpoint coinInputsLoop (t : Transaction U Sg) (spendCoins : gset CoinOutputID)
    (index : nat) (rest : list (CoinInput U)) : option error :=
  match rest with
  | [] => None
  | ci :: rest' =>
      if decide (ci_ParentID ci ∈ spendCoins) then Some ErrDoubleSpend
      else
        match Unlock (ci_Unlocker ci) (uint64 (Z.of_nat index)) t with
        | Some err => Some err
        | None => coinInputsLoop t ({[ci_ParentID ci]} ∪ spendCoins) (S index) rest'
        end
  end.

(** The second loop, over [t.BlockStakeInputs] with [spendBlockStakes]. *)
Fixpoint blockStakeInputsLoop (t : Transaction U Sg)
    (spendBlockStakes : gset BlockStakeOutputID)
    (index : nat) (rest : list (BlockStakeInput U)) : option error :=
  match rest with
  | [] => None
  | bsi :: rest' =>
      if decide (bsi_ParentID bsi ∈ spendBlockStakes) then Some ErrDoubleSpend
      else
        match Unlock (bsi_Unlocker bsi) (uint64 (Z.of_nat index)) t with
        | Some err => Some err
        | None =>
            blockStakeInputsLoop t ({[bsi_ParentID bsi]} ∪ spendBlockStakes)
              (S index) rest'
        end
  end.

(** [func (t *Transaction) validSignatures(currentHeight BlockHeight) (err error)] *)
Definition validSignatures (t : Transaction U Sg) (currentHeight : BlockHeight)
    : option error :=
  match coinInputsLoop t ∅ 0%nat (CoinInputs t) with
  | Some err => Some err
  | None => blockStakeInputsLoop t ∅ 0%nat (BlockStakeInputs t)
  end.

End signatures.

(** *** constants.go *)

(** The numeric chain constants of [ChainConstants] (the currency units and
    the genesis allocations are left out: nothing below reads them).
    [RootDepth] is the 256-bit value of its 32 bytes. *)
Record ChainConstants := mkChainConstants {
  BlockSizeLimit : Z;
  RootDepth : Z;
  BlockFrequency : BlockHeight;
  MaturityDelay : BlockHeight;
  MedianTimestampWindow : Z;
  TargetWindow : BlockHeight;
  MaxAdjustmentUp : Qc;
  MaxAdjustmentDown : Qc;
  FutureThreshold : Timestamp;
  ExtremeFutureThreshold : Timestamp;
  StakeModifierDelay : BlockHeight;
  BlockStakeAging : Z;
  GenesisTimestamp : Timestamp;
}.

(** [func DefaultChainConstants() ChainConstants]: [release] is
    [build.Release], and [now] what [CurrentTimestamp()] returns in the
    testing build. Any release other than dev and testing is the standard
    net. *)
Definition DefaultChainConstants (release : string) (now : Timestamp)
    : ChainConstants :=
  if String.eqb release "dev" then
      {| BlockSizeLimit := 2000000;
         RootDepth := 2 ^ 256 - 1;
         BlockFrequency := 12;
         MaturityDelay := 10;
         MedianTimestampWindow := 11;
         TargetWindow := 20;
         MaxAdjustmentUp := NewRat' 120 100;
         MaxAdjustmentDown := NewRat' 100 120;
         FutureThreshold := 2 * 60;
         ExtremeFutureThreshold := 4 * 60;
         StakeModifierDelay := 2000;
         BlockStakeAging := Z.shiftl 1 10;
         GenesisTimestamp := 1424139000 |}
  else if String.eqb release "testing" then
      {| BlockSizeLimit := 2000000;
         RootDepth := 2 ^ 256 - 1;
         BlockFrequency := 1;
         MaturityDelay := 3;
         MedianTimestampWindow := 11;
         TargetWindow := 200;
         MaxAdjustmentUp := NewRat' 10001 10000;
         MaxAdjustmentDown := NewRat' 9999 10000;
         FutureThreshold := 3;
         ExtremeFutureThreshold := 6;
         StakeModifierDelay := 20;
         BlockStakeAging := Z.shiftl 1 10;
         GenesisTimestamp := uint64 (now - 1000000) |}
  else
      {| BlockSizeLimit := 2000000;
         RootDepth := 2 ^ 256 - 1;
         BlockFrequency := 600;
         MaturityDelay := 144;
         MedianTimestampWindow := 11;
         TargetWindow := 1000;
         MaxAdjustmentUp := NewRat' 25 10;
         MaxAdjustmentDown := NewRat' 10 25;
         FutureThreshold := 3 * 60 * 60;
         ExtremeFutureThreshold := 5 * 60 * 60;
         StakeModifierDelay := 2000;
         BlockStakeAging := Z.shiftl 1 17;
         GenesisTimestamp := 1496322000 |}.

End types.

(** ** Package [consensus]: processedblock.go *)

Module consensus.
Import mach big types.

(** The methods of [types.Target] that processedblock.go calls; target.go is
    not among the sources, so the code below is parametric in them.
    [zeroTarget] is the zero value [types.Target{}]; [Cmp] returns -1, 0 or
    +1. *)
Class TargetOps (Target : Type) := {
  zeroTarget : Target;
  AddDifficulties : Target -> Target -> Target;
  MulDifficulty : Target -> Qc -> Target;
  Cmp : Target -> Target -> Z;
  Rat : Target -> Qc;
  RatToTarget : Qc -> Target;
}.

(** [var SurpassThreshold = big.NewRat(20, 100)] *)
Definition SurpassThreshold : Qc := NewRat' 20 100.

Section processedBlock.
Context {Target Body CoinOutputDiff BlockStakeOutputDiff DelayedCoinOutputDiff : Type}.

(** [types.Block]: the two header fields read here, and the rest of the
    block (proof-of-stake data and transactions). *)
Record Block := mkBlock {
  ParentID : BlockID;
  Timestamp_ : Timestamp;
  BlockBody : Body;
}.

Record processedBlock := mkProcessedBlock {
  Block_ : Block;
  Height : BlockHeight;
  Depth : Target;
  ChildTarget : Target;
  DiffsGenerated : bool;
  CoinOutputDiffs : list CoinOutputDiff;
  BlockStakeOutputDiffs : list BlockStakeOutputDiff;
  DelayedCoinOutputDiffs : list DelayedCoinOutputDiff;
  ConsensusChecksum : Hash;
}.

Definition with_ChildTarget (pb : processedBlock) (t : Target) : processedBlock :=
  {| Block_ := Block_ pb; Height := Height pb; Depth := Depth pb;
     ChildTarget := t;
     DiffsGenerated := DiffsGenerated pb;
     CoinOutputDiffs := CoinOutputDiffs pb;
     BlockStakeOutputDiffs := BlockStakeOutputDiffs pb;
     DelayedCoinOutputDiffs := DelayedCoinOutputDiffs pb;
     ConsensusChecksum := ConsensusChecksum pb |}.

End processedBlock.

Arguments Block : clear implicits.
Arguments processedBlock : clear implicits.

(** What the block bucket and the encoding package do for this file:
    [build.DEBUG]; [b.ID()]; [encoding.Marshal]; [encoding.Unmarshal(bytes,
    &parent)], as the value left in [parent] and whether [err != nil]; and
    [UnmarshalBlockHeadersParentIDAndTS]. *)
Class Storage (Target Body D1 D2 D3 : Type) := {
  DEBUG : bool;
  ID : Block Body -> BlockID;
  Marshal : processedBlock Target Body D1 D2 D3 -> list Byte.byte;
  Unmarshal : list Byte.byte -> processedBlock Target Body D1 D2 D3 * bool;
  UnmarshalBlockHeadersParentIDAndTS : list Byte.byte -> BlockID * Timestamp;
}.

Section consensus.
Context {Target Body D1 D2 D3 : Type}.
Context `{!TargetOps Target} `{!Storage Target Body D1 D2 D3}.
(** [types.BlockFrequency], [types.TargetWindow], [types.MaxAdjustmentUp]
    and [types.MaxAdjustmentDown] are read from [cts]. *)
Context (cts : ChainConstants).

Local Abbreviation pBlock := (processedBlock Target Body D1 D2 D3).

(** A [*bolt.Bucket]: [Get] of an absent key is [nil]. *)
Definition Get (blockMap : gmap BlockID (list Byte.byte)) (key : BlockID)
    : list Byte.byte :=
  default [] (blockMap !! key).

(** [Put] of a 32-byte key in a writable transaction. *)
Definition Put (blockMap : gmap BlockID (list Byte.byte)) (key : BlockID)
    (value : list Byte.byte) : gmap BlockID (list Byte.byte) :=
  <[key := value]> blockMap.

(** [func (pb *processedBlock) heavierThan(cmp *processedBlock) bool] *)
Definition heavierThan (pb cmp : pBlock) : bool :=
  let requirement :=
    AddDifficulties (Depth cmp) (MulDifficulty (ChildTarget cmp) SurpassThreshold) in
  Cmp requirement (Depth pb) >? 0.

(** [func (pb *processedBlock) childDepth() types.Target] *)
Definition childDepth (pb : pBlock) : Target :=
  AddDifficulties (Depth pb) (ChildTarget pb).

(** The [for] loop of [targetAdjustmentBase], one iteration per unit of
    [fuel]: the final [(windowSize, current)], or [None] out of fuel. *)
Fixpoint windowLoop (blockMap : gmap BlockID (list Byte.byte)) (fuel : nat)
    (windowSize : BlockHeight) (parent current : BlockID)
    : option (BlockHeight * BlockID) :=
  match fuel with
  | O => None
  | S fuel' =>
      if (windowSize <? TargetWindow cts) && negb (parent =? 0) then
        let current := parent in
        let '(parentID, _) := UnmarshalBlockHeadersParentIDAndTS (Get blockMap parent) in
        let parent := parentID in
        windowLoop blockMap fuel' (uint64 (windowSize + 1)) parent current
      else Some (windowSize, current)
  end.

(** [func (cs *ConsensusSet) targetAdjustmentBase(blockMap *bolt.Bucket,
    pb *processedBlock) *big.Rat] *)
Definition targetAdjustmentBase (blockMap : gmap BlockID (list Byte.byte))
    (pb : pBlock) : option Qc :=
  let parent := ParentID (Block_ pb) in
  let current := ID (Block_ pb) in
  match windowLoop blockMap (S (Z.to_nat (TargetWindow cts))) 0 parent current with
  | None => None
  | Some (windowSize, current) =>
      let '(_, timestamp) := UnmarshalBlockHeadersParentIDAndTS (Get blockMap current) in
      let timePassed := uint64 (Timestamp_ (Block_ pb) - timestamp) in
      let expectedTimePassed := uint64 (BlockFrequency cts * windowSize) in
      NewRat (int64 timePassed) (int64 expectedTimePassed)
  end.

(** [func clampTargetAdjustment(base *big.Rat) *big.Rat] *)
Definition clampTargetAdjustment (base : Qc) : Qc :=
  if RatCmp base (MaxAdjustmentUp cts) >? 0 then MaxAdjustmentUp cts
  else if RatCmp base (MaxAdjustmentDown cts) <? 0 then MaxAdjustmentDown cts
  else base.

(** [func (cs *ConsensusSet) setChildTarget(blockMap *bolt.Bucket,
    pb *processedBlock)]: the updated [*pb], or [None] for a panic (the
    [DEBUG] check, the integer division by zero of [%], or [big.NewRat]). *)
Definition setChildTarget (blockMap : gmap BlockID (list Byte.byte))
    (pb : pBlock) : option pBlock :=
  let parentBytes := Get blockMap (ParentID (Block_ pb)) in
  let '(parent, err) := Unmarshal parentBytes in
  if DEBUG && err then None
  else if TargetWindow cts / 2 =? 0 then None
  else if negb (Height pb mod (TargetWindow cts / 2) =? 0) then
    Some (with_ChildTarget pb (ChildTarget parent))
  else
    match targetAdjustmentBase blockMap pb with
    | None => None
    | Some base =>
        let adjustment := clampTargetAdjustment base in
        let adjustedRatTarget := (Rat (ChildTarget parent) * adjustment)%Qc in
        Some (with_ChildTarget pb (RatToTarget adjustedRatTarget))
    end.

(** [func (cs *ConsensusSet) newChild(tx *bolt.Tx, pb *processedBlock,
    b types.Block) *processedBlock]: the child and the bucket after [Put]. *)
Definition newChild (blockMap : gmap BlockID (list Byte.byte)) (pb : pBlock)
    (b : Block Body) : option (pBlock * gmap BlockID (list Byte.byte)) :=
  let childID := ID b in
  let child :=
    {| Block_ := b;
       Height := uint64 (Height pb + 1);
       Depth := childDepth pb;
       ChildTarget := zeroTarget;
       DiffsGenerated := false;
       CoinOutputDiffs := [];
       BlockStakeOutputDiffs := [];
       DelayedCoinOutputDiffs := [];
       ConsensusChecksum := 0 |} in
  match setChildTarget blockMap child with
  | None => None
  | Some child => Some (child, Put blockMap childID (Marshal child))
  end.

End consensus.

End consensus.

(** ** Instances of the interfaces *)

Module model.
Import mach big types consensus.

(** Modelled from the spec: target.go is not among the sources. A target is
    a 256-bit unsigned integer, numerically smaller meaning more difficult;
    [MaxTarget] is the largest one. *)
Definition MaxTarget : N := 2 ^ 256 - 1.

(** Modelled from the spec: results saturate to the 256-bit range instead
    of overflowing. *)
Definition IntToTarget (i : Z) : N :=
  if i <? 0 then 0%N else N.min (Z.to_N i) MaxTarget.

(** Modelled from the spec: [Target.Rat], the target as a rational. *)
Definition TargetRat (x : N) : Qc := Q2Qc (inject_Z (Z.of_N x)).

(** Modelled from the spec: [RatToTarget], a rational converted back to an
    integer target. *)
Definition TargetFromRat (r : Qc) : N := IntToTarget (Qfloor r).

(** Modelled from the spec: [Target.AddDifficulties]. The difficulty of a
    target is its inverse, and depth accumulates difficulties: the target
    whose difficulty is the sum of the difficulties of [x] and [y] is
    [x*y/(x+y)]; a zero target has unbounded difficulty, and so has every sum
    with it. *)
Definition TargetAddDifficulties (x y : N) : N :=
  IntToTarget (Z.of_N (x * y / (x + y))).

(** Modelled from the spec: [Target.MulDifficulty], the target whose
    difficulty is [r] times that of [x]; no difficulty at all is the largest
    target. *)
Definition TargetMulDifficulty (x : N) (r : Qc) : N :=
  if Qc_eq_dec r (Q2Qc 0) then MaxTarget
  else TargetFromRat (TargetRat x / r)%Qc.

(** Modelled from the spec: [Target.Cmp], the comparison of the 256-bit
    values; the smaller target is the heavier one. *)
Definition TargetCmp (x y : N) : Z :=
  match (x ?= y)%N with
  | Lt => -1
  | Eq => 0
  | Gt => 1
  end.

#[export] Instance specTarget : TargetOps N := {|
  zeroTarget := 0%N;
  AddDifficulties := TargetAddDifficulties;
  MulDifficulty := TargetMulDifficulty;
  Cmp := TargetCmp;
  Rat := TargetRat;
  RatToTarget := TargetFromRat;
|}.

(** A fixed-width big-endian encoding, standing in for the encoding
    package: [width] bytes of [z]. *)
Fixpoint be_bytes (width : nat) (z : Z) : list Byte.byte :=
  match width with
  | O => []
  | S w =>
      default Byte.x00 (Byte.of_N (Z.to_N ((z / 256 ^ Z.of_nat w) mod 256)))
        :: be_bytes w z
  end.

Definition be_value (bs : list Byte.byte) : Z :=
  fold_left (fun acc b => acc * 256 + Z.of_N (Byte.to_N b)) bs 0.

(** Blocks whose body is the identifier [b.ID()] returns (standing in for
    the hash of the block), and no diffs. *)
Abbreviation demoBlock := (Block Z).
Abbreviation demoNode := (processedBlock N Z Empty_set Empty_set Empty_set).

Definition demoMarshal (pb : demoNode) : list Byte.byte :=
  be_bytes 32 (ParentID (Block_ pb)) ++ be_bytes 8 (Timestamp_ (Block_ pb))
  ++ be_bytes 32 (BlockBody (Block_ pb)) ++ be_bytes 8 (Height pb)
  ++ be_bytes 32 (Z.of_N (Depth pb)) ++ be_bytes 32 (Z.of_N (ChildTarget pb))
  ++ be_bytes 1 (if DiffsGenerated pb then 1 else 0)
  ++ be_bytes 32 (ConsensusChecksum pb).

Definition demoZero : demoNode :=
  {| Block_ := {| ParentID := 0; Timestamp_ := 0; BlockBody := 0 |};
     Height := 0; Depth := 0%N; ChildTarget := 0%N; DiffsGenerated := false;
     CoinOutputDiffs := []; BlockStakeOutputDiffs := [];
     DelayedCoinOutputDiffs := []; ConsensusChecksum := 0 |}.

Definition slice (from len : nat) (bs : list Byte.byte) : list Byte.byte :=
  firstn len (skipn from bs).

Definition demoUnmarshal (bs : list Byte.byte) : demoNode * bool :=
  if Nat.eqb (length bs) 177 then
    ({| Block_ := {| ParentID := be_value (slice 0 32 bs);
                     Timestamp_ := be_value (slice 32 8 bs);
                     BlockBody := be_value (slice 40 32 bs) |};
        Height := be_value (slice 72 8 bs);
        Depth := Z.to_N (be_value (slice 80 32 bs));
        ChildTarget := Z.to_N (be_value (slice 112 32 bs));
        DiffsGenerated := negb (be_value (slice 144 1 bs) =? 0);
        CoinOutputDiffs := []; BlockStakeOutputDiffs := [];
        DelayedCoinOutputDiffs := [];
        ConsensusChecksum := be_value (slice 145 32 bs) |}, false)
  else (demoZero, true).

Definition demoHeaders (bs : list Byte.byte) : BlockID * Timestamp :=
  if Nat.leb 40 (length bs) then
    (be_value (slice 0 32 bs), be_value (slice 32 8 bs))
  else (0, 0).

#[export] Instance demoStorage : Storage N Z Empty_set Empty_set Empty_set := {|
  DEBUG := false;
  ID := BlockBody;
  Marshal := demoMarshal;
  Unmarshal := demoUnmarshal;
  UnmarshalBlockHeadersParentIDAndTS := demoHeaders;
|}.

(** The constants of the standard build. *)
Definition stdConstants : ChainConstants := DefaultChainConstants "standard" 0.

Definition demoPB (id parent : BlockID) (ts : Timestamp) (h : BlockHeight)
    (depth childTarget : N) : demoNode :=
  {| Block_ := {| ParentID := parent; Timestamp_ := ts; BlockBody := id |};
     Height := h; Depth := depth; ChildTarget := childTarget;
     DiffsGenerated := false;
     CoinOutputDiffs := []; BlockStakeOutputDiffs := [];
     DelayedCoinOutputDiffs := []; ConsensusChecksum := 0 |}.

(** The bucket holding the given nodes under their identifiers. *)
Definition demoBucket (nodes : list demoNode) : gmap BlockID (list Byte.byte) :=
  fold_left (fun m pb => Put m (ID (Block_ pb)) (Marshal pb)) nodes ∅.

(** An unlocker whose unlock condition is either fulfilled or lacks a
    signature, with the hash of its condition. *)
Inductive demoUnlocker :=
| Fulfilled (uh : UnlockHash)
| Unsigned (uh : UnlockHash).

Definition demoUnlockHash (u : demoUnlocker) : UnlockHash :=
  match u with
  | Fulfilled uh => uh
  | Unsigned uh => uh
  end.

#[export] Instance demoUnlock : Unlocker demoUnlocker (list Byte.byte) := {|
  UnlockHashOf := demoUnlockHash;
  Unlock u inputIndex t :=
    match u with
    | Fulfilled _ => None
    | Unsigned _ => Some ErrMissingSignatures
    end;
|}.

Abbreviation demoTransaction := (Transaction demoUnlocker (list Byte.byte)).

Definition enc_demoUnlockHash (uh : UnlockHash) : list Byte.byte :=
  be_bytes 1 (UnlockType uh) ++ be_bytes 32 (UnlockHashBytes uh).

(** Length-prefixed fixed-width encodings, and the low 256 bits of the
    bytes written standing in for the digest. *)
#[export] Instance demoEncoding : SigEncoding := {|
  enc_uint64 := be_bytes 8;
  enc_OutputID := be_bytes 32;
  enc_UnlockHash := enc_demoUnlockHash;
  enc_CoinOutputs l :=
    be_bytes 8 (Z.of_nat (length l))
    ++ concat (map (fun o => be_bytes 32 (co_Value o)
                             ++ enc_demoUnlockHash (co_UnlockHash o)) l);
  enc_BlockStakeOutputs l :=
    be_bytes 8 (Z.of_nat (length l))
    ++ concat (map (fun o => be_bytes 32 (bso_Value o)
                             ++ enc_demoUnlockHash (bso_UnlockHash o)) l);
  enc_MinerFees l :=
    be_bytes 8 (Z.of_nat (length l)) ++ concat (map (be_bytes 32) l);
  enc_ArbitraryData d := be_bytes 8 (Z.of_nat (length d)) ++ d;
  HashSum bs := be_value bs mod 2 ^ 256;
|}.

(** *** Example transactions and chains *)

Definition uh1 : UnlockHash := {| UnlockType := 1; UnlockHashBytes := 11 |}.

(** Three coin inputs, the last two spending output 2; the first one lacks
    its signature. *)
Definition tx_unsigned_then_repeat : demoTransaction :=
  {| CoinInputs := [ {| ci_ParentID := 1; ci_Unlocker := Unsigned uh1 |};
                     {| ci_ParentID := 2; ci_Unlocker := Fulfilled uh1 |};
                     {| ci_ParentID := 2; ci_Unlocker := Fulfilled uh1 |} ];
     CoinOutputs := [ {| co_Value := 5; co_UnlockHash := uh1 |} ];
     BlockStakeInputs := [];
     BlockStakeOutputs := [];
     MinerFees := [1];
     ArbitraryData := [];
     Signatures := [] |}.

(** Two fulfilled coin inputs spending output 7. *)
Definition tx_repeat : demoTransaction :=
  {| CoinInputs := [ {| ci_ParentID := 7; ci_Unlocker := Fulfilled uh1 |};
                     {| ci_ParentID := 7; ci_Unlocker := Fulfilled uh1 |} ];
     CoinOutputs := [];
     BlockStakeInputs := [];
     BlockStakeOutputs := [];
     MinerFees := [];
     ArbitraryData := [];
     Signatures := [] |}.

(** A coin input and a block-stake input with the same parent ID bytes. *)
Definition tx_shared_id : demoTransaction :=
  {| CoinInputs := [ {| ci_ParentID := 7; ci_Unlocker := Fulfilled uh1 |} ];
     CoinOutputs := [];
     BlockStakeInputs := [ {| bsi_ParentID := 7; bsi_Unlocker := Fulfilled uh1 |} ];
     BlockStakeOutputs := [];
     MinerFees := [];
     ArbitraryData := [];
     Signatures := [] |}.

(** Outputs, fees and data, and no input. *)
Definition tx_no_inputs : demoTransaction :=
  {| CoinInputs := [];
     CoinOutputs := [ {| co_Value := 5; co_UnlockHash := uh1 |} ];
     BlockStakeInputs := [];
     BlockStakeOutputs := [ {| bso_Value := 1; bso_UnlockHash := uh1 |} ];
     MinerFees := [3];
     ArbitraryData := [Byte.x2a];
     Signatures := [] |}.

(** [tx_repeat] with other signature data: an unsigned second input and a
    non-empty signature list. *)
Definition tx_repeat_resigned : demoTransaction :=
  {| CoinInputs := [ {| ci_ParentID := 7; ci_Unlocker := Fulfilled uh1 |};
                     {| ci_ParentID := 7; ci_Unlocker := Unsigned uh1 |} ];
     CoinOutputs := [];
     BlockStakeInputs := [];
     BlockStakeOutputs := [];
     MinerFees := [];
     ArbitraryData := [];
     Signatures := [[Byte.x01; Byte.x02]] |}.

(** Genesis (timestamp 0), its child (timestamp 50) and a grandchild with
    timestamp 100. *)
Definition chain_genesis : demoNode := demoPB 1 0 0 0 1000%N 1000%N.
Definition chain_parent : demoNode := demoPB 2 1 50 1 500%N 1000%N.
Definition chain_node : demoNode := demoPB 3 2 100 2 333%N 0%N.
Definition chain_bucket : gmap BlockID (list Byte.byte) :=
  demoBucket [chain_genesis; chain_parent].

(** A chain whose timestamps run backwards: 10, 7, 5. *)
Definition back_genesis : demoNode := demoPB 1 0 10 0 1000%N 1000%N.
Definition back_parent : demoNode := demoPB 2 1 7 1 500%N 1000%N.
Definition back_node : demoNode := demoPB 3 2 5 2 333%N 0%N.
Definition back_bucket : gmap BlockID (list Byte.byte) :=
  demoBucket [back_genesis; back_parent].

(** A node at a retarget height, on the chain of [chain_bucket]. *)
Definition retarget_node : demoNode := demoPB 3 2 100 500 333%N 0%N.

(** A parent at the largest [uint64] height. *)
Definition last_height_parent : demoNode :=
  demoPB 2 1 50 (2 ^ 64 - 1) 500%N 1000%N.

Definition child_block : demoBlock :=
  {| ParentID := 2; Timestamp_ := 100; BlockBody := 3 |}.

(** The child [newChild] makes of [child_block] under [chain_parent]. *)
Definition stored_child : demoNode := demoPB 3 2 100 2 333%N 1000%N.

End model.

(** ** The statements of the specification *)

Module spec.
Import mach big types consensus.

(** [sortedUnique] as the specification words it, for any [max]. *)
Definition sortedUnique_claim (elems : list Z) (max : Z) : Prop :=
  sortedUnique elems max = true <->
  StronglySorted Z.lt elems /\ Forall (fun e => e < max) elems.

Section transactions.
Context {U Sg : Type} `{!Unlocker U Sg} `{!SigEncoding}.

(** The bytes the specification lists for [InputSigHash], in its order: the
    input index, every coin input's parent ID and unlock hash, the coin
    outputs, every block-stake input's parent ID and unlock hash, the
    block-stake outputs, the miner fees, the arbitrary data. *)
Definition sigHashPreimage (t : Transaction U Sg) (inputIndex : Z)
    : list Byte.byte :=
  enc_uint64 inputIndex
  ++ concat (map (fun ci => enc_OutputID (ci_ParentID ci)
                            ++ enc_UnlockHash (UnlockHashOf (ci_Unlocker ci)))
               (CoinInputs t))
  ++ enc_CoinOutputs (CoinOutputs t)
  ++ concat (map (fun bsi => enc_OutputID (bsi_ParentID bsi)
                             ++ enc_UnlockHash (UnlockHashOf (bsi_Unlocker bsi)))
               (BlockStakeInputs t))
  ++ enc_BlockStakeOutputs (BlockStakeOutputs t)
  ++ enc_MinerFees (MinerFees t)
  ++ enc_ArbitraryData (ArbitraryData t).

(** Two transactions that differ at most in their signature data: the
    [Signatures] list, and whatever an input's unlocker holds beyond the
    unlock hash of its condition. *)
Definition same_except_signatures (t1 t2 : Transaction U Sg) : Prop :=
  map (fun ci => (ci_ParentID ci, UnlockHashOf (ci_Unlocker ci))) (CoinInputs t1)
  = map (fun ci => (ci_ParentID ci, UnlockHashOf (ci_Unlocker ci))) (CoinInputs t2)
  /\ CoinOutputs t1 = CoinOutputs t2
  /\ map (fun bsi => (bsi_ParentID bsi, UnlockHashOf (bsi_Unlocker bsi)))
       (BlockStakeInputs t1)
     = map (fun bsi => (bsi_ParentID bsi, UnlockHashOf (bsi_Unlocker bsi)))
         (BlockStakeInputs t2)
  /\ BlockStakeOutputs t1 = BlockStakeOutputs t2
  /\ MinerFees t1 = MinerFees t2
  /\ ArbitraryData t1 = ArbitraryData t2.

Definition with_Signatures (t : Transaction U Sg) (sigs : list Sg)
    : Transaction U Sg :=
  {| CoinInputs := CoinInputs t; CoinOutputs := CoinOutputs t;
     BlockStakeInputs := BlockStakeInputs t;
     BlockStakeOutputs := BlockStakeOutputs t;
     MinerFees := MinerFees t; ArbitraryData := ArbitraryData t;
     Signatures := sigs |}.

(** Every [Unlock] call of a run of inputs starting at position [index]
    returns [nil]. *)
Definition unlocks_from {I : Type} (unl : I -> U) (t : Transaction U Sg)
    (index : nat) (ins : list I) : Prop :=
  forall k i, ins !! k = Some i ->
    Unlock (unl i) (uint64 (Z.of_nat (index + k))) t = None.

(** Some coin input [x] references the output of an earlier coin input (one
    of [pre]); likewise for block-stake inputs. *)
Definition coin_double_spend (t : Transaction U Sg) : Prop :=
  exists pre x post, CoinInputs t = pre ++ x :: post /\
    In (ci_ParentID x) (map ci_ParentID pre).

Definition blockstake_double_spend (t : Transaction U Sg) : Prop :=
  exists pre x post, BlockStakeInputs t = pre ++ x :: post /\
    In (bsi_ParentID x) (map bsi_ParentID pre).

(** The double-spend rule as the specification words it. *)
Definition double_spend_claim (t : Transaction U Sg) : Prop :=
  coin_double_spend t ->
  forall currentHeight, validSignatures t currentHeight = Some ErrDoubleSpend.

End transactions.

Section retarget.
Context {Target Body D1 D2 D3 : Type} {storage : Storage Target Body D1 D2 D3}.
Context (cts : ChainConstants).

(** The chain constants the retargeting arithmetic is written for: a
    positive block frequency, a window of at least two blocks, and an
    expected window time that fits [int64]. *)
Definition retarget_constants (c : ChainConstants) : Prop :=
  0 < BlockFrequency c /\ 2 <= TargetWindow c /\
  BlockFrequency c * TargetWindow c < 2 ^ 63.

(** The parent ID and the timestamp the bucket records for a block. *)
Definition headerParent (blockMap : gmap BlockID (list Byte.byte))
    (id : BlockID) : BlockID :=
  fst (UnmarshalBlockHeadersParentIDAndTS (Get blockMap id)).

Definition headerTimestamp (blockMap : gmap BlockID (list Byte.byte))
    (id : BlockID) : Timestamp :=
  snd (UnmarshalBlockHeadersParentIDAndTS (Get blockMap id)).

(** The [k]-th ancestor of a node: the node itself, its parent (by the
    node's own [ParentID]), then the parents the bucket records. *)
Definition nthAncestor (blockMap : gmap BlockID (list Byte.byte))
    (pb : processedBlock Target Body D1 D2 D3) (k : nat) : BlockID :=
  match k with
  | O => ID (Block_ pb)
  | S k' => Nat.iter k' (headerParent blockMap) (ParentID (Block_ pb))
  end.

(** [ws] is the length of the walk back from the node: [TargetWindow] steps,
    or fewer when the block reached has the zero parent ID. *)
Definition window_size (blockMap : gmap BlockID (list Byte.byte))
    (pb : processedBlock Target Body D1 D2 D3) (ws : nat) : Prop :=
  Z.of_nat ws <= TargetWindow cts /\
  (Z.of_nat ws = TargetWindow cts \/ nthAncestor blockMap pb (S ws) = 0) /\
  (forall i, (i < ws)%nat -> nthAncestor blockMap pb (S i) <> 0).

(** The ratio as the specification words it: the time between the node's
    immediate parent and the window-start block, over [BlockFrequency] times
    the window size, in exact arithmetic. *)
Definition parent_elapsed_ratio (blockMap : gmap BlockID (list Byte.byte))
    (pb : processedBlock Target Body D1 D2 D3) (ws : nat) : option Qc :=
  NewRat (headerTimestamp blockMap (ParentID (Block_ pb))
          - headerTimestamp blockMap (nthAncestor blockMap pb ws))
         (BlockFrequency cts * Z.of_nat ws).

(** The same with the node's own timestamp. *)
Definition own_elapsed_ratio (blockMap : gmap BlockID (list Byte.byte))
    (pb : processedBlock Target Body D1 D2 D3) (ws : nat) : option Qc :=
  NewRat (Timestamp_ (Block_ pb)
          - headerTimestamp blockMap (nthAncestor blockMap pb ws))
         (BlockFrequency cts * Z.of_nat ws).

(** C2 as the specification words it. *)
Definition targetAdjustmentBase_claim (blockMap : gmap BlockID (list Byte.byte))
    (pb : processedBlock Target Body D1 D2 D3) : Prop :=
  exists ws, window_size blockMap pb ws /\
    targetAdjustmentBase cts blockMap pb = parent_elapsed_ratio blockMap pb ws.

(** C9 as the specification words it: when the node's timestamp is below
    the window-start timestamp, the ratio returned is not the one of the true
    (negative) elapsed time. *)
Definition wrapped_ratio_claim (blockMap : gmap BlockID (list Byte.byte))
    (pb : processedBlock Target Body D1 D2 D3) : Prop :=
  forall ws, window_size blockMap pb ws ->
    Timestamp_ (Block_ pb)
      < headerTimestamp blockMap (nthAncestor blockMap pb ws) ->
    targetAdjustmentBase cts blockMap pb <> own_elapsed_ratio blockMap pb ws.

End retarget.

Section retarget_claims.
Context {Target Body D1 D2 D3 : Type} {target : TargetOps Target}
  {storage : Storage Target Body D1 D2 D3}.
Context (cts : ChainConstants).

(** C4 as the specification words it, for every node: with [parent] what
    the bucket holds under the node's [ParentID], the [ChildTarget] is
    inherited off a retarget height, and adjusted at one. *)
Definition setChildTarget_claim (blockMap : gmap BlockID (list Byte.byte))
    (pb : processedBlock Target Body D1 D2 D3) : Prop :=
  let parent := fst (Unmarshal (Get blockMap (ParentID (Block_ pb)))) in
  (Height pb mod (TargetWindow cts / 2) <> 0 ->
   exists pb', setChildTarget cts blockMap pb = Some pb' /\
     ChildTarget pb' = ChildTarget parent) /\
  (Height pb mod (TargetWindow cts / 2) = 0 ->
   exists pb' base, setChildTarget cts blockMap pb = Some pb' /\
     targetAdjustmentBase cts blockMap pb = Some base /\
     ChildTarget pb'
     = RatToTarget (Rat (ChildTarget parent)
                    * clampTargetAdjustment cts base)%Qc).

End retarget_claims.

End spec.

(** ** Package [types]: the public keys of signatures.go *)

Module keys.
Import mach types.

(** A Go string is the sequence of its bytes. *)
Definition bytes_of (s : string) : list Byte.byte := list_byte_of_string s.

Definition colon : Byte.byte := Byte.x3a.

(** [strings.Split(s, sep)] for a separator of one byte: the pieces of [s]
    between the separators, one more than there are separators. *)
Fixpoint Split (s : list Byte.byte) (sep : Byte.byte) : list (list Byte.byte) :=
  match s with
  | [] => [[]]
  | c :: s' =>
      if Byte.eqb c sep then [] :: Split s' sep
      else
        match Split s' sep with
        | piece :: pieces => (c :: piece) :: pieces
        | [] => [[c]]
        end
  end.

(** The digits of [encoding/hex] and of the verb [%x]. *)
Definition hextable : list Byte.byte := bytes_of "0123456789abcdef".

Definition hexDigit (n : N) : Byte.byte := nth (N.to_nat n) hextable Byte.x00.

(** [fmt.Sprintf("%x", b)] for a byte slice: two lower-case digits a byte. *)
Definition Sprintf_x (b : list Byte.byte) : list Byte.byte :=
  flat_map (fun c => [hexDigit (Byte.to_N c / 16); hexDigit (Byte.to_N c mod 16)]) b.

(** The value of a hexadecimal digit, of either case ([reverseHexTable]). *)
Definition fromHexChar (c : Byte.byte) : option N :=
  let n := Byte.to_N c in
  if (48 <=? n)%N && (n <=? 57)%N then Some (n - 48)%N
  else if (97 <=? n)%N && (n <=? 102)%N then Some (n - 97 + 10)%N
  else if (65 <=? n)%N && (n <=? 70)%N then Some (n - 65 + 10)%N
  else None.

(** [hex.DecodeString(s)]: the bytes, or [None] for an error (a byte that is
    no digit, or an odd length). *)
Fixpoint DecodeString (s : list Byte.byte) : option (list Byte.byte) :=
  match s with
  | [] => Some []
  | [_] => None
  | p :: q :: rest =>
      match fromHexChar p, fromHexChar q with
      | Some a, Some b =>
          match DecodeString rest with
          | Some bytes =>
              Some (default Byte.x00 (Byte.of_N (16 * a + b)) :: bytes)
          | None => None
          end
      | _, _ => None
      end
  end.

(** The builtin [copy(dst, src)] into an array: as many bytes as both hold
    are overwritten, the rest of [dst] stays. *)
Definition copy (dst src : list Byte.byte) : list Byte.byte :=
  firstn (length dst) (src ++ skipn (length src) dst).

(** [SiaPublicKey]; a [nil] key is the empty list. *)
Record SiaPublicKey := mkSiaPublicKey {
  Algorithm : list Byte.byte;
  Key : list Byte.byte;
}.

Section specifier.
(** [Specifier] is an array of bytes declared outside signatures.go: its
    length, and its method [String]. *)
Context (SpecifierLen : nat) (SpecifierString : list Byte.byte -> list Byte.byte).

(** The composite literal [Specifier{'e', 'n', ...}]: the bytes given, then
    zeros. *)
Definition SpecifierLit (name : list Byte.byte) : list Byte.byte :=
  firstn SpecifierLen (name ++ repeat Byte.x00 (SpecifierLen - length name)).

Definition SignatureEntropy : list Byte.byte := SpecifierLit (bytes_of "entropy").
Definition SignatureEd25519 : list Byte.byte := SpecifierLit (bytes_of "ed25519").

(** The zero value [SiaPublicKey{}]. *)
Definition zeroKey : SiaPublicKey :=
  {| Algorithm := repeat Byte.x00 SpecifierLen; Key := [] |}.

(** [func Ed25519PublicKey(pk crypto.PublicKey) SiaPublicKey] *)
Definition Ed25519PublicKey (pk : list Byte.byte) : SiaPublicKey :=
  {| Algorithm := SignatureEd25519; Key := pk |}.

(** [func (spk *SiaPublicKey) LoadString(s string)]: the key after the call. *)
Definition LoadString (spk : SiaPublicKey) (s : list Byte.byte) : SiaPublicKey :=
  let parts := Split s colon in
  if negb (Nat.eqb (length parts) 2) then spk
  else
    match DecodeString (nth 1 parts []) with
    | None => {| Algorithm := Algorithm spk; Key := [] |}
    | Some key =>
        {| Algorithm := copy (Algorithm spk) (nth 0 parts []); Key := key |}
    end.

(** [func (spk *SiaPublicKey) String() string] *)
Definition SiaPublicKey_String (spk : SiaPublicKey) : list Byte.byte :=
  SpecifierString (Algorithm spk) ++ bytes_of ":" ++ Sprintf_x (Key spk).

End specifier.

(** A [Specifier.String] for the examples: the bytes before the first zero
    byte. *)
Fixpoint upToZero (s : list Byte.byte) : list Byte.byte :=
  match s with
  | [] => []
  | c :: s' => if Byte.eqb c Byte.x00 then [] else c :: upToZero s'
  end.

End keys.

(** ** Package [types]: the genesis of constants.go *)

Module genesis.
Import mach big types consensus.

(** Modelled from the spec: currency.go is not among the sources. A
    [Currency] is an arbitrary-precision unsigned integer; [NewCurrency] and
    [NewCurrency64] build it from its value, [Big] reads the value back,
    [Add] and [Mul64] are the sum and the product. *)
Definition NewCurrency (b : Z) : Currency := b.

(** Modelled from the spec: see [NewCurrency]. *)
Definition NewCurrency64 (x : Z) : Currency := x.

(** Modelled from the spec: see [NewCurrency]. *)
Definition Currency_Add (x y : Currency) : Currency := x + y.

(** Modelled from the spec: see [NewCurrency]. *)
Definition Currency_Mul64 (x : Currency) (y : Z) : Currency := x * y.

(** Modelled from the spec: see [NewCurrency]. *)
Definition Currency_Big (x : Currency) : Z := x.

(** [func DefaultCurrencyUnits() CurrencyUnits] *)
Definition DefaultCurrencyUnits_OneCoin : Currency := NewCurrency (10 ^ 9).

(** [ChainConstants] with the fields the record of the numeric constants
    leaves out. *)
Record AllConstants := mkAllConstants {
  numeric : ChainConstants;
  BlockCreatorFee : Currency;
  MinimumTransactionFee : Currency;
  GenesisBlockStakeAllocation : list BlockStakeOutput;
  GenesisCoinDistribution : list CoinOutput;
  OneCoin : Currency;
}.

(** The value of a [crypto.Hash] written as its bytes. *)
Definition hash_of_bytes (bs : list Z) : Hash :=
  fold_left (fun acc b => acc * 256 + b) bs 0.

Section defaults.
(** [UnlockHash.LoadString] on a zero unlock hash and the constant
    [UnlockTypeSingleSignature] are declared outside constants.go. *)
Context (LoadUnlockHash : list Byte.byte -> UnlockHash)
        (UnlockTypeSingleSignature : Z).

Definition devAddress : list Byte.byte :=
  keys.bytes_of "015a080a9259b9d4aaa550e2156f49b1a79a64c7ea463d810d4493e8242e679158b5b6a40c197f".

Definition standardAddress : list Byte.byte :=
  keys.bytes_of "b5e42056ef394f2ad9b511a61cec874d25bebe2095682dd37455cbafed4bec15c28ee7d7ed1d".

Definition testingHash1 : Hash :=
  hash_of_bytes [214; 166; 197; 164; 29; 201; 53; 236; 106; 239; 10; 158; 127;
                 131; 20; 138; 63; 221; 230; 16; 98; 247; 32; 77; 210; 68; 116;
                 12; 241; 89; 27; 223].

Definition testingHash2 : Hash :=
  hash_of_bytes [209; 246; 228; 60; 248; 78; 242; 110; 9; 8; 227; 248; 225;
                 216; 163; 52; 142; 93; 47; 176; 103; 41; 137; 80; 212; 8; 132;
                 58; 241; 189; 2; 17].

(** [func DefaultChainConstants() ChainConstants], all fields. *)
Definition DefaultAllConstants (release : string) (now : Timestamp)
    : AllConstants :=
  let oneCoin := DefaultCurrencyUnits_OneCoin in
  if String.eqb release "dev" then
    {| numeric := DefaultChainConstants release now;
       BlockCreatorFee := Currency_Mul64 oneCoin 10;
       MinimumTransactionFee := Currency_Mul64 oneCoin 1;
       GenesisBlockStakeAllocation :=
         [] ++ [ {| bso_Value := NewCurrency64 1000000;
                    bso_UnlockHash := LoadUnlockHash devAddress |} ];
       GenesisCoinDistribution :=
         [] ++ [ {| co_Value := Currency_Mul64 oneCoin 1000;
                    co_UnlockHash := LoadUnlockHash devAddress |} ];
       OneCoin := oneCoin |}
  else if String.eqb release "testing" then
    {| numeric := DefaultChainConstants release now;
       BlockCreatorFee := Currency_Mul64 oneCoin 100;
       MinimumTransactionFee := Currency_Mul64 oneCoin 1;
       GenesisBlockStakeAllocation :=
         [ {| bso_Value := NewCurrency64 2000;
              bso_UnlockHash := {| UnlockType := UnlockTypeSingleSignature;
                                   UnlockHashBytes := testingHash1 |} |};
           {| bso_Value := NewCurrency64 7000;
              bso_UnlockHash := {| UnlockType := UnlockTypeSingleSignature;
                                   UnlockHashBytes := testingHash2 |} |};
           {| bso_Value := NewCurrency64 1000;
              bso_UnlockHash := {| UnlockType := 0; UnlockHashBytes := 0 |} |} ];
       GenesisCoinDistribution :=
         [ {| co_Value := Currency_Mul64 oneCoin 1000;
              co_UnlockHash := {| UnlockType := UnlockTypeSingleSignature;
                                  UnlockHashBytes := testingHash1 |} |} ];
       OneCoin := oneCoin |}
  else
    {| numeric := DefaultChainConstants release now;
       BlockCreatorFee := Currency_Mul64 oneCoin 10;
       MinimumTransactionFee := Currency_Mul64 oneCoin 1;
       GenesisBlockStakeAllocation :=
         [] ++ [ {| bso_Value := NewCurrency64 1000000;
                    bso_UnlockHash := LoadUnlockHash standardAddress |} ];
       GenesisCoinDistribution :=
         [] ++ [ {| co_Value := Currency_Mul64 oneCoin (100 * 1000 * 1000);
                    co_UnlockHash := LoadUnlockHash standardAddress |} ];
       OneCoin := oneCoin |}.

End defaults.

(** [func (c *ChainConstants) Validate() error]: the message of the error,
    [None] for [nil]. *)
Definition Validate (c : AllConstants) : option string :=
  if Nat.eqb (length (GenesisCoinDistribution c)) 0 then
    Some "Invalid genesis coin distribution"%string
  else if Nat.eqb (length (GenesisBlockStakeAllocation c)) 0 then
    Some "Invalid genesis blockstake allocation"%string
  else if GenesisTimestamp (numeric c) <? 1231006505 then
    Some "Invalid genesis timestamp"%string
  else None.

Section blocks.
Context {U Sg : Type}.

(** [func (c *ChainConstants) GenesisBlock() Block]; the body of a block is
    its transactions, every field left out of the literals is zero. *)
Definition GenesisBlock (c : AllConstants) : Block (list (Transaction U Sg)) :=
  {| ParentID := 0;
     Timestamp_ := GenesisTimestamp (numeric c);
     BlockBody :=
       [ {| CoinInputs := [];
            CoinOutputs := GenesisCoinDistribution c;
            BlockStakeInputs := [];
            BlockStakeOutputs := GenesisBlockStakeAllocation c;
            MinerFees := [];
            ArbitraryData := [];
            Signatures := [] |} ] |}.

End blocks.

(** [func (c *ChainConstants) GenesisBlockStakeCount() (bsc Currency)] *)
Definition GenesisBlockStakeCount (c : AllConstants) : Currency :=
  fold_left (fun bsc bs => Currency_Add bsc (bso_Value bs))
    (GenesisBlockStakeAllocation c) (NewCurrency64 0).

(** [func (c *ChainConstants) GenesisCoinCount() (cc Currency)] *)
Definition GenesisCoinCount (c : AllConstants) : Currency :=
  fold_left (fun cc coin => Currency_Add cc (co_Value coin))
    (GenesisCoinDistribution c) (NewCurrency64 0).

(** [Difficulty], the struct of one [big.Int]. *)
Record Difficulty := mkDifficulty { i : Z }.

(** Modelled from the spec: [NewDifficulty] and [Difficulty.Cmp] are not
    among the sources; a difficulty is an unsigned integer, built from its
    value and compared by it. *)
Definition NewDifficulty (b : Z) : Difficulty := {| i := b |}.

(** Modelled from the spec: see [NewDifficulty]. *)
Definition Difficulty_Cmp (x y : Difficulty) : Z :=
  match i x ?= i y with
  | Lt => -1
  | Eq => 0
  | Gt => 1
  end.

(** [func (c *ChainConstants) StartDifficulty() Difficulty] *)
Definition StartDifficulty (c : AllConstants) : Difficulty :=
  let startDifficulty :=
    NewDifficulty (int64 (BlockFrequency (numeric c))
                   * Currency_Big (GenesisBlockStakeCount c)) in
  if Difficulty_Cmp startDifficulty {| i := 0 |} =? 0 then {| i := 1 |}
  else startDifficulty.

(** The sum of the values of the genesis block-stake outputs. *)
Definition total_block_stake (c : AllConstants) : Z :=
  fold_right Z.add 0 (map bso_Value (GenesisBlockStakeAllocation c)).

End genesis.

(** ** Proof steps shared below *)

(** Order goals over [Qc], read over [Q]. *)
Ltac qc_order :=
  repeat match goal with H : _ /\ _ |- _ => destruct H end;
  unfold Qcle, Qclt in *; lra.

Ltac in_union_l := apply elem_of_union; left; apply elem_of_singleton; reflexivity.
Ltac in_union_r H := apply elem_of_union; right; exact H.

(** ** Machine integer facts *)

Section mach_facts.
Import mach.

Lemma uint64_id z : is_uint64 z -> uint64 z = z.
Proof. unfold is_uint64, uint64. intros H. apply Z.mod_small. lia. Qed.

Lemma uint64_range z : is_uint64 (uint64 z).
Proof. unfold is_uint64, uint64. apply Z.mod_pos_bound. lia. Qed.

Lemma int64_small z : 0 <= z < 2 ^ 63 -> int64 z = z.
Proof.
  intros H. unfold int64. rewrite Z.mod_small by lia.
  destruct (Z.ltb_spec z (2 ^ 63)); lia.
Qed.

Lemma int64_neg z : - 2 ^ 63 <= z < 0 -> int64 (uint64 z) = z.
Proof.
  intros H. unfold int64, uint64. rewrite Z.mod_mod by lia.
  assert (Hm : z mod 2 ^ 64 = z + 2 ^ 64).
  { symmetry. apply (Z.mod_unique z (2 ^ 64) (-1)); lia. }
  rewrite Hm. destruct (Z.ltb_spec (z + 2 ^ 64) (2 ^ 63)); lia.
Qed.

End mach_facts.

(** ** [sortedUnique] *)

Section sortedUnique_facts.
Import mach types spec.

Lemma last_cons_default (rest : list Z) : forall e d,
  List.last (e :: rest) d = List.last rest e.
Proof.
  induction rest as [|z r IH]; intros e d; [reflexivity|].
  change (List.last (e :: z :: r) d) with (List.last (z :: r) d).
  rewrite (IH z d), (IH z e). reflexivity.
Qed.

Lemma sortedUnique_scan_spec rest : forall biggest,
  match sortedUnique_scan biggest rest with
  | Some b => StronglySorted Z.lt (biggest :: rest) /\ b = List.last rest biggest
  | None => ~ StronglySorted Z.lt (biggest :: rest)
  end.
Proof.
  induction rest as [|e rest IH]; intros biggest; simpl.
  - split; [constructor; constructor | reflexivity].
  - destruct (Z.leb_spec e biggest) as [Hle|Hlt].
    + intros Hs. inversion Hs as [|? ? _ Hall]; subst.
      inversion Hall; subst. lia.
    + specialize (IH e). destruct (sortedUnique_scan e rest) as [b|].
      * destruct IH as [Hs Hb]. split.
        -- constructor; [exact Hs|]. constructor; [exact Hlt|].
           inversion Hs as [|? ? _ Hall]; subst.
           eapply List.Forall_impl; [|exact Hall]. simpl. intros; lia.
        -- rewrite Hb. symmetry. apply last_cons_default.
      * intros Hs. apply IH. inversion Hs; subst. assumption.
Qed.

(** In a strictly increasing list the last element bounds all of them. *)
Lemma sorted_last_bound rest : forall biggest,
  StronglySorted Z.lt (biggest :: rest) ->
  Forall (fun e => e <= List.last rest biggest) (biggest :: rest).
Proof.
  induction rest as [|e rest IH]; intros biggest Hs.
  - constructor; [simpl; lia | constructor].
  - inversion Hs as [|? ? Hs' Hall]; subst.
    specialize (IH e Hs').
    assert (Hlt : biggest < e) by (inversion Hall; assumption).
    assert (Hel : e <= List.last rest e) by (inversion IH; assumption).
    rewrite last_cons_default.
    constructor; [lia | exact IH].
Qed.

Lemma last_in_cons (rest : list Z) : forall biggest,
  In (List.last rest biggest) (biggest :: rest).
Proof.
  induction rest as [|e rest IH]; intros biggest; [left; reflexivity|].
  right. rewrite last_cons_default. apply IH.
Qed.

Lemma StronglySorted_lt_NoDup (l : list Z) : StronglySorted Z.lt l -> List.NoDup l.
Proof.
  induction 1 as [|a l Hs IH Hall]; constructor; [|exact IH].
  intros Hin. rewrite Forall_forall in Hall. specialize (Hall a).
  apply list_elem_of_In in Hin. apply Hall in Hin. lia.
Qed.

(** C7, as stated, fails for a negative bound: [uint64(max)] turns [-1] into
    [2^64 - 1], so [sortedUnique([0], -1)] is [true] although [0 < -1] is
    false. *)
Lemma sortedUnique_negative_max :
  is_int (-1) /\ is_uint64 0 /\
  sortedUnique [0] (-1) = true /\ ~ sortedUnique_claim [0] (-1).
Proof.
  split; [unfold is_int; lia|]. split; [unfold is_uint64; lia|].
  split; [reflexivity|].
  unfold sortedUnique_claim. intros [Hc _].
  destruct (Hc eq_refl) as [_ Hall]. inversion Hall; subst. lia.
Qed.

(** C7 (amended): for a bound [0 <= max] of type [int], [sortedUnique elems max]
    is [true] exactly when [elems] is strictly increasing and every element is
    below [max]; an accepted list has no repeated index. *)
Theorem sortedUnique_correct (elems : list Z) (max : Z) :
  0 <= max -> is_int max ->
  sortedUnique_claim elems max /\
  (sortedUnique elems max = true -> List.NoDup elems).
Proof.
  intros Hpos Hint.
  assert (Hiff : sortedUnique_claim elems max).
  { unfold sortedUnique_claim, sortedUnique.
    destruct elems as [|e0 tl].
    { split; [intros _; split; constructor | reflexivity]. }
    rewrite (uint64_id max) by (unfold is_int, is_uint64 in *; lia).
    pose proof (sortedUnique_scan_spec tl e0) as Hscan.
    destruct (sortedUnique_scan e0 tl) as [b|].
    - destruct Hscan as [Hs ->].
      destruct (Z.geb_spec (List.last tl e0) max) as [Hge|Hlt]; split.
      + discriminate.
      + intros [_ Hall]. rewrite Forall_forall in Hall.
        pose proof (last_in_cons tl e0) as Hin.
        apply list_elem_of_In, Hall in Hin. lia.
      + intros _. split; [exact Hs|].
        eapply List.Forall_impl; [|apply sorted_last_bound; exact Hs].
        simpl. intros; lia.
      + reflexivity.
    - split; [discriminate | intros [Hs _]; contradiction]. }
  split; [exact Hiff|].
  intros Ht. apply StronglySorted_lt_NoDup. apply Hiff in Ht. tauto.
Qed.

Lemma sortedUnique_correct_witness :
  sortedUnique [0; 2; 5] 6 = true /\ List.NoDup [0; 2; 5] /\
  sortedUnique [0; 2; 2] 6 = false /\ sortedUnique [0; 2; 6] 6 = false.
Proof.
  pose proof (sortedUnique_correct [0; 2; 5] 6
                ltac:(lia) ltac:(unfold is_int; lia)) as [_ Hnd].
  split; [reflexivity|]. split; [exact (Hnd eq_refl)|].
  split; reflexivity.
Defined.

End sortedUnique_facts.

(** ** Fork choice: [heavierThan] *)

Section heavierThan_facts.
Import mach big types consensus model.
Context {Target Body D1 D2 D3 : Type} {target : TargetOps Target}.

Lemma SurpassThreshold_lowest_terms : this SurpassThreshold = (1 # 5)%Q.
Proof. reflexivity. Qed.

(** C1: [heavierThan candidate current] is [true] exactly when the
    requirement [current.Depth.AddDifficulties(current.ChildTarget.MulDifficulty
    (SurpassThreshold))] compares strictly greater than [candidate.Depth]
    ([Cmp] positive), and [SurpassThreshold] is the rational 20/100. *)
Theorem heavierThan_iff (candidate current : processedBlock Target Body D1 D2 D3) :
  (heavierThan candidate current = true <->
   Cmp (AddDifficulties (Depth current)
          (MulDifficulty (ChildTarget current) SurpassThreshold))
       (Depth candidate) > 0)
  /\ SurpassThreshold = Q2Qc (20 # 100)
  /\ (SurpassThreshold == 20 # 100)%Q.
Proof.
  split; [|split].
  - unfold heavierThan. cbv zeta.
    destruct (Z.gtb_spec
      (Cmp (AddDifficulties (Depth current)
              (MulDifficulty (ChildTarget current) SurpassThreshold))
           (Depth candidate)) 0); split; intros; (lia || congruence).
  - reflexivity.
  - reflexivity.
Qed.

End heavierThan_facts.

Section heavierThan_model.
Import mach big types consensus model.

(** With targets as 256-bit integers, the candidate is heavier exactly when
    its depth is the numerically smaller target. *)
Lemma heavierThan_smaller_target (candidate current : demoNode) :
  heavierThan candidate current = true <->
  (Depth candidate <
   TargetAddDifficulties (Depth current)
     (TargetMulDifficulty (ChildTarget current) SurpassThreshold))%N.
Proof.
  unfold heavierThan. cbn.
  unfold TargetCmp.
  match goal with |- context [(?a ?= ?b)%N] =>
    destruct (N.compare_spec a b) as [Heq|Hlt|Hgt] end;
    split; intros; try discriminate; try reflexivity; lia.
Qed.

End heavierThan_model.

(** ** Retargeting: [clampTargetAdjustment] *)

Section clamp_facts.
Import mach big types consensus.

Lemma RatCmp_gt (x y : Qc) : (RatCmp x y >? 0) = true <-> (y < x)%Qc.
Proof.
  unfold RatCmp. change (y < x)%Qc with (x > y)%Qc. rewrite Qcgt_alt.
  destruct (x ?= y)%Qc; compute; split; intros; congruence.
Qed.

Lemma RatCmp_lt (x y : Qc) : (RatCmp x y <? 0) = true <-> (x < y)%Qc.
Proof.
  unfold RatCmp. rewrite (Qclt_alt x y).
  destruct (x ?= y)%Qc; compute; split; intros; congruence.
Qed.

(** C8: [clampTargetAdjustment] returns [MaxAdjustmentUp] for a ratio above
    it, [MaxAdjustmentDown] for a ratio below it, and the ratio itself
    otherwise; with [MaxAdjustmentDown <= MaxAdjustmentUp], as in every set
    of chain constants, the result lies in
    [[MaxAdjustmentDown, MaxAdjustmentUp]]. *)
Theorem clampTargetAdjustment_spec (cts : ChainConstants) (ratio : Qc) :
  (MaxAdjustmentDown cts <= MaxAdjustmentUp cts)%Qc ->
  ((MaxAdjustmentUp cts < ratio)%Qc ->
     clampTargetAdjustment cts ratio = MaxAdjustmentUp cts) /\
  ((ratio < MaxAdjustmentDown cts)%Qc ->
     clampTargetAdjustment cts ratio = MaxAdjustmentDown cts) /\
  ((MaxAdjustmentDown cts <= ratio)%Qc /\ (ratio <= MaxAdjustmentUp cts)%Qc ->
     clampTargetAdjustment cts ratio = ratio) /\
  (MaxAdjustmentDown cts <= clampTargetAdjustment cts ratio)%Qc /\
  (clampTargetAdjustment cts ratio <= MaxAdjustmentUp cts)%Qc.
Proof.
  intros Hdu. unfold clampTargetAdjustment.
  destruct (RatCmp ratio (MaxAdjustmentUp cts) >? 0) eqn:Hup.
  - apply RatCmp_gt in Hup.
    repeat split; try reflexivity; try assumption;
      try apply Qcle_refl; intros; exfalso; qc_order.
  - assert (Hle : (ratio <= MaxAdjustmentUp cts)%Qc).
    { apply Qcnot_lt_le. intros Hlt. apply RatCmp_gt in Hlt. congruence. }
    destruct (RatCmp ratio (MaxAdjustmentDown cts) <? 0) eqn:Hdown.
    + apply RatCmp_lt in Hdown.
      repeat split; try reflexivity; try assumption;
        try apply Qcle_refl; intros; exfalso; qc_order.
    + assert (Hge : (MaxAdjustmentDown cts <= ratio)%Qc).
      { apply Qcnot_lt_le. intros Hlt. apply RatCmp_lt in Hlt. congruence. }
      repeat split; try reflexivity; try assumption;
        intros; exfalso; qc_order.
Qed.

(** The three sets of constants of [DefaultChainConstants] order the two
    bounds as the clamp needs, and both are positive. *)
Lemma DefaultChainConstants_clamp_bounds (release : string) (now : Timestamp) :
  (0 < MaxAdjustmentDown (DefaultChainConstants release now))%Qc /\
  (MaxAdjustmentDown (DefaultChainConstants release now)
   <= MaxAdjustmentUp (DefaultChainConstants release now))%Qc.
Proof.
  unfold DefaultChainConstants.
  destruct (String.eqb release "dev"); [split; vm_compute; congruence|].
  destruct (String.eqb release "testing"); split; vm_compute; congruence.
Qed.

Lemma clampTargetAdjustment_spec_witness :
  clampTargetAdjustment model.stdConstants (NewRat' 7 1) = NewRat' 25 10 /\
  clampTargetAdjustment model.stdConstants (NewRat' 1 12) = NewRat' 10 25 /\
  clampTargetAdjustment model.stdConstants (NewRat' 3 2) = NewRat' 3 2.
Proof.
  pose proof (clampTargetAdjustment_spec model.stdConstants (NewRat' 7 1)
                (proj2 (DefaultChainConstants_clamp_bounds "standard" 0)))
    as (Hup & _).
  split; [apply Hup; vm_compute; reflexivity|].
  split; apply Qc_is_canon; reflexivity.
Defined.

End clamp_facts.

(** ** Transaction validation: [InputSigHash] *)

Section InputSigHash_facts.
Import mach big types spec.
Context {U Sg : Type} {unlocker : Unlocker U Sg} {encoding : SigEncoding}.

(** Writing the two fields of each input of a list, one input after the
    other, appends the concatenation of what each input writes. *)
Lemma fold_Encode_concat {A : Type} (w1 w2 : A -> list Byte.byte)
    (l : list A) : forall h,
  fold_left (fun h a => (h ++ w1 a) ++ w2 a) l h
  = h ++ concat (map (fun a => w1 a ++ w2 a) l).
Proof.
  induction l as [|a l IH]; intros h; simpl.
  - symmetry. apply app_nil_r.
  - rewrite IH, <- !app_assoc. reflexivity.
Qed.

Lemma InputSigHash_preimage (t : Transaction U Sg) (inputIndex : Z) :
  InputSigHash t inputIndex = HashSum (sigHashPreimage t inputIndex).
Proof.
  unfold InputSigHash, sigHashPreimage, Encode. cbv zeta. f_equal.
  pose proof (fold_Encode_concat (fun ci => enc_OutputID (ci_ParentID ci))
                (fun ci => enc_UnlockHash (UnlockHashOf (ci_Unlocker ci)))
                (CoinInputs t)) as Hci.
  pose proof (fold_Encode_concat (fun bsi => enc_OutputID (bsi_ParentID bsi))
                (fun bsi => enc_UnlockHash (UnlockHashOf (bsi_Unlocker bsi)))
                (BlockStakeInputs t)) as Hbsi.
  cbv beta in Hci, Hbsi. rewrite Hci, Hbsi.
  simpl. rewrite <- !app_assoc. reflexivity.
Qed.

Lemma map_pair_fields {A B C : Type} (f : A -> B) (g : A -> C)
    (w : B -> C -> list Byte.byte) (l1 : list A) : forall l2,
  map (fun a => (f a, g a)) l1 = map (fun a => (f a, g a)) l2 ->
  map (fun a => w (f a) (g a)) l1 = map (fun a => w (f a) (g a)) l2.
Proof.
  induction l1 as [|a l1 IH]; intros [|b l2] Hm; simpl in *;
    try discriminate; [reflexivity|].
  injection Hm as Hf Hg Hrest. rewrite Hf, Hg, (IH l2 Hrest). reflexivity.
Qed.

(** C5: [InputSigHash] is the digest of exactly the input index, each coin
    input's parent ID and unlock hash, the coin outputs, each block-stake
    input's parent ID and unlock hash, the block-stake outputs, the miner fees
    and the arbitrary data; two transactions that differ only in their
    signature data have the same hash at every input index. *)
Theorem InputSigHash_excludes_signatures (t : Transaction U Sg) (inputIndex : Z) :
  InputSigHash t inputIndex = HashSum (sigHashPreimage t inputIndex) /\
  (forall sigs, InputSigHash (with_Signatures t sigs) inputIndex
                = InputSigHash t inputIndex) /\
  (forall t', same_except_signatures t t' ->
              InputSigHash t' inputIndex = InputSigHash t inputIndex).
Proof.
  split; [apply InputSigHash_preimage|]. split.
  - intros sigs. reflexivity.
  - intros t' (Hci & Hco & Hbsi & Hbso & Hmf & Had).
    rewrite !InputSigHash_preimage. f_equal. unfold sigHashPreimage.
    rewrite Hco, Hbso, Hmf, Had.
    rewrite (map_pair_fields ci_ParentID (fun ci => UnlockHashOf (ci_Unlocker ci))
               (fun id uh => enc_OutputID id ++ enc_UnlockHash uh) _ _ Hci).
    rewrite (map_pair_fields bsi_ParentID (fun b => UnlockHashOf (bsi_Unlocker b))
               (fun id uh => enc_OutputID id ++ enc_UnlockHash uh) _ _ Hbsi).
    reflexivity.
Qed.

End InputSigHash_facts.

(** ** Transaction validation: [validSignatures] *)

Section validSignatures_facts.
Import mach big types spec.
Context {U Sg : Type} {unlocker : Unlocker U Sg}.

Lemma unlocks_from_cons {I : Type} (unl : I -> U) t index (i : I) ins :
  unlocks_from unl t index (i :: ins) <->
  Unlock (unl i) (uint64 (Z.of_nat index)) t = None /\
  unlocks_from unl t (S index) ins.
Proof.
  unfold unlocks_from. split.
  - intros Hall. split.
    + specialize (Hall 0%nat i eq_refl).
      rewrite Nat.add_0_r in Hall. exact Hall.
    + intros k j Hk. specialize (Hall (S k) j Hk).
      rewrite Nat.add_succ_r in Hall. exact Hall.
  - intros [H0 Hrest] [|k] j Hk; simpl in Hk.
    + injection Hk as <-. rewrite Nat.add_0_r. exact H0.
    + rewrite Nat.add_succ_r. apply (Hrest k j Hk).
Qed.

(** The coin loop runs to its end exactly when no parent ID repeats or is
    already spent and every [Unlock] succeeds. *)
Lemma coinInputsLoop_None t (ins : list (CoinInput U)) : forall spent index,
  coinInputsLoop t spent index ins = None <->
  List.NoDup (map ci_ParentID ins) /\
  (forall id, In id (map ci_ParentID ins) -> id ∉ spent) /\
  unlocks_from ci_Unlocker t index ins.
Proof.
  induction ins as [|ci ins IH]; intros spent index; simpl.
  - split; [intros _|reflexivity].
    split; [constructor|]. split; [intros ? []|].
    intros k i Hk. discriminate.
  - rewrite unlocks_from_cons.
    destruct (decide (ci_ParentID ci ∈ spent)) as [Hin|Hnin].
    + split; [discriminate|]. intros (_ & Hfresh & _).
      exfalso. apply (Hfresh (ci_ParentID ci)); [left; reflexivity | exact Hin].
    + destruct (Unlock (ci_Unlocker ci) (uint64 (Z.of_nat index)) t) as [e|].
      * split; [discriminate|]. intros (_ & _ & Hu & _). discriminate.
      * rewrite IH. split.
        -- intros (Hnd & Hfresh & Hu). split; [|split; [|split]].
           ++ constructor; [|exact Hnd]. intros Hin.
              apply (Hfresh _ Hin). in_union_l.
           ++ intros id [<-|Hin]; [exact Hnin|].
              intros Hs. apply (Hfresh _ Hin). in_union_r Hs.
           ++ reflexivity.
           ++ exact Hu.
        -- intros (Hnd & Hfresh & _ & Hu). inversion Hnd as [|? ? Hni Hnd']; subst.
           split; [exact Hnd'|]. split; [|exact Hu].
           intros id Hin Hs. apply elem_of_union in Hs as [Hs|Hs].
           ++ apply elem_of_singleton in Hs. subst. contradiction.
           ++ apply (Hfresh id); [right; exact Hin | exact Hs].
Qed.

Lemma blockStakeInputsLoop_None t (ins : list (BlockStakeInput U)) :
  forall spent index,
  blockStakeInputsLoop t spent index ins = None <->
  List.NoDup (map bsi_ParentID ins) /\
  (forall id, In id (map bsi_ParentID ins) -> id ∉ spent) /\
  unlocks_from bsi_Unlocker t index ins.
Proof.
  induction ins as [|bsi ins IH]; intros spent index; simpl.
  - split; [intros _|reflexivity].
    split; [constructor|]. split; [intros ? []|].
    intros k i Hk. discriminate.
  - rewrite unlocks_from_cons.
    destruct (decide (bsi_ParentID bsi ∈ spent)) as [Hin|Hnin].
    + split; [discriminate|]. intros (_ & Hfresh & _).
      exfalso. apply (Hfresh (bsi_ParentID bsi)); [left; reflexivity | exact Hin].
    + destruct (Unlock (bsi_Unlocker bsi) (uint64 (Z.of_nat index)) t) as [e|].
      * split; [discriminate|]. intros (_ & _ & Hu & _). discriminate.
      * rewrite IH. split.
        -- intros (Hnd & Hfresh & Hu). split; [|split; [|split]].
           ++ constructor; [|exact Hnd]. intros Hin.
              apply (Hfresh _ Hin). in_union_l.
           ++ intros id [<-|Hin]; [exact Hnin|].
              intros Hs. apply (Hfresh _ Hin). in_union_r Hs.
           ++ reflexivity.
           ++ exact Hu.
        -- intros (Hnd & Hfresh & _ & Hu). inversion Hnd as [|? ? Hni Hnd']; subst.
           split; [exact Hnd'|]. split; [|exact Hu].
           intros id Hin Hs. apply elem_of_union in Hs as [Hs|Hs].
           ++ apply elem_of_singleton in Hs. subst. contradiction.
           ++ apply (Hfresh id); [right; exact Hin | exact Hs].
Qed.

(** An input that repeats a spent parent ID, reached with every earlier
    [Unlock] succeeding, stops the loop with [ErrDoubleSpend]. *)
Lemma coinInputsLoop_double_spend t (pre : list (CoinInput U)) :
  forall spent index x post,
  (ci_ParentID x ∈ spent \/ In (ci_ParentID x) (map ci_ParentID pre)) ->
  unlocks_from ci_Unlocker t index pre ->
  coinInputsLoop t spent index (pre ++ x :: post) = Some ErrDoubleSpend.
Proof.
  induction pre as [|ci pre IH]; intros spent index x post Hdup Hu; simpl.
  - destruct Hdup as [Hin|[]]. destruct (decide (ci_ParentID x ∈ spent));
      [reflexivity | contradiction].
  - apply unlocks_from_cons in Hu as [Hu0 Hu].
    destruct (decide (ci_ParentID ci ∈ spent)); [reflexivity|].
    rewrite Hu0. apply IH; [|exact Hu].
    destruct Hdup as [Hin|[Heq|Hin]].
    + left. in_union_r Hin.
    + left. rewrite Heq. in_union_l.
    + right. exact Hin.
Qed.

Lemma blockStakeInputsLoop_double_spend t (pre : list (BlockStakeInput U)) :
  forall spent index x post,
  (bsi_ParentID x ∈ spent \/ In (bsi_ParentID x) (map bsi_ParentID pre)) ->
  unlocks_from bsi_Unlocker t index pre ->
  blockStakeInputsLoop t spent index (pre ++ x :: post) = Some ErrDoubleSpend.
Proof.
  induction pre as [|bsi pre IH]; intros spent index x post Hdup Hu; simpl.
  - destruct Hdup as [Hin|[]]. destruct (decide (bsi_ParentID x ∈ spent));
      [reflexivity | contradiction].
  - apply unlocks_from_cons in Hu as [Hu0 Hu].
    destruct (decide (bsi_ParentID bsi ∈ spent)); [reflexivity|].
    rewrite Hu0. apply IH; [|exact Hu].
    destruct Hdup as [Hin|[Heq|Hin]].
    + left. in_union_r Hin.
    + left. rewrite Heq. in_union_l.
    + right. exact Hin.
Qed.

(** An input whose [Unlock] fails, reached with no parent ID repeated so far
    and every earlier [Unlock] succeeding, stops the loop with the error of
    that [Unlock]. *)
Lemma coinInputsLoop_unlock_error t (pre : list (CoinInput U)) :
  forall spent index x post e,
  List.NoDup (map ci_ParentID (pre ++ [x])) ->
  (forall id, In id (map ci_ParentID (pre ++ [x])) -> id ∉ spent) ->
  unlocks_from ci_Unlocker t index pre ->
  Unlock (ci_Unlocker x) (uint64 (Z.of_nat (index + length pre))) t = Some e ->
  coinInputsLoop t spent index (pre ++ x :: post) = Some e.
Proof.
  induction pre as [|ci pre IH]; intros spent index x post e Hnd Hfresh Hu Hx;
    simpl.
  - destruct (decide (ci_ParentID x ∈ spent)) as [Hin|_].
    + exfalso. apply (Hfresh (ci_ParentID x)); [left; reflexivity | exact Hin].
    + simpl in Hx. rewrite Nat.add_0_r in Hx. rewrite Hx. reflexivity.
  - apply unlocks_from_cons in Hu as [Hu0 Hu].
    simpl in Hnd. inversion Hnd as [|? ? Hni Hnd']; subst.
    destruct (decide (ci_ParentID ci ∈ spent)) as [Hin|_].
    + exfalso. apply (Hfresh (ci_ParentID ci)); [left; reflexivity | exact Hin].
    + rewrite Hu0. apply IH; [exact Hnd' | | exact Hu |].
      * intros id Hid Hs. apply elem_of_union in Hs as [Hs|Hs].
        -- apply elem_of_singleton in Hs. subst id. contradiction.
        -- apply (Hfresh id); [right; exact Hid | exact Hs].
      * simpl in Hx. rewrite Nat.add_succ_r in Hx. exact Hx.
Qed.

Lemma blockStakeInputsLoop_unlock_error t (pre : list (BlockStakeInput U)) :
  forall spent index x post e,
  List.NoDup (map bsi_ParentID (pre ++ [x])) ->
  (forall id, In id (map bsi_ParentID (pre ++ [x])) -> id ∉ spent) ->
  unlocks_from bsi_Unlocker t index pre ->
  Unlock (bsi_Unlocker x) (uint64 (Z.of_nat (index + length pre))) t = Some e ->
  blockStakeInputsLoop t spent index (pre ++ x :: post) = Some e.
Proof.
  induction pre as [|bsi pre IH]; intros spent index x post e Hnd Hfresh Hu Hx;
    simpl.
  - destruct (decide (bsi_ParentID x ∈ spent)) as [Hin|_].
    + exfalso. apply (Hfresh (bsi_ParentID x)); [left; reflexivity | exact Hin].
    + simpl in Hx. rewrite Nat.add_0_r in Hx. rewrite Hx. reflexivity.
  - apply unlocks_from_cons in Hu as [Hu0 Hu].
    simpl in Hnd. inversion Hnd as [|? ? Hni Hnd']; subst.
    destruct (decide (bsi_ParentID bsi ∈ spent)) as [Hin|_].
    + exfalso. apply (Hfresh (bsi_ParentID bsi)); [left; reflexivity | exact Hin].
    + rewrite Hu0. apply IH; [exact Hnd' | | exact Hu |].
      * intros id Hid Hs. apply elem_of_union in Hs as [Hs|Hs].
        -- apply elem_of_singleton in Hs. subst id. contradiction.
        -- apply (Hfresh id); [right; exact Hid | exact Hs].
      * simpl in Hx. rewrite Nat.add_succ_r in Hx. exact Hx.
Qed.

Lemma NoDup_map_repeat {A : Type} (f : A -> Z) (pre : list A) x post :
  In (f x) (map f pre) -> ~ List.NoDup (map f (pre ++ x :: post)).
Proof.
  intros Hin Hnd. rewrite List.map_app in Hnd. simpl in Hnd.
  apply List.NoDup_remove_2 in Hnd. apply Hnd, in_or_app. left. exact Hin.
Qed.

(** C3 (amended): [validSignatures] returns [ErrDoubleSpend] when a coin
    input repeats the parent ID of an earlier coin input and every [Unlock]
    call before it succeeded, and likewise for a block-stake input once the
    coin inputs have all passed; when instead an [Unlock] call fails before
    any parent ID has repeated, the error of that first failing [Unlock] is
    what [validSignatures] returns; a transaction with a parent ID repeated
    among its coin inputs, or among its block-stake inputs, is rejected in
    every case. The two loops keep separate sets: the
    transaction is accepted exactly when the coin parent IDs are distinct
    among themselves, the block-stake parent IDs are distinct among
    themselves, and every [Unlock] succeeds, whatever the two lists share. *)
Theorem validSignatures_double_spend (t : Transaction U Sg)
    (currentHeight : BlockHeight) :
  (forall pre x post,
     CoinInputs t = pre ++ x :: post ->
     In (ci_ParentID x) (map ci_ParentID pre) ->
     unlocks_from ci_Unlocker t 0 pre ->
     validSignatures t currentHeight = Some ErrDoubleSpend) /\
  (forall pre x post,
     BlockStakeInputs t = pre ++ x :: post ->
     In (bsi_ParentID x) (map bsi_ParentID pre) ->
     unlocks_from bsi_Unlocker t 0 pre ->
     List.NoDup (map ci_ParentID (CoinInputs t)) ->
     unlocks_from ci_Unlocker t 0 (CoinInputs t) ->
     validSignatures t currentHeight = Some ErrDoubleSpend) /\
  (coin_double_spend t \/ blockstake_double_spend t ->
   validSignatures t currentHeight <> None) /\
  (validSignatures t currentHeight = None <->
   List.NoDup (map ci_ParentID (CoinInputs t)) /\
   unlocks_from ci_Unlocker t 0 (CoinInputs t) /\
   List.NoDup (map bsi_ParentID (BlockStakeInputs t)) /\
   unlocks_from bsi_Unlocker t 0 (BlockStakeInputs t)) /\
  (forall pre x post e,
     CoinInputs t = pre ++ x :: post ->
     List.NoDup (map ci_ParentID (pre ++ [x])) ->
     unlocks_from ci_Unlocker t 0 pre ->
     Unlock (ci_Unlocker x) (uint64 (Z.of_nat (length pre))) t = Some e ->
     validSignatures t currentHeight = Some e) /\
  (forall pre x post e,
     BlockStakeInputs t = pre ++ x :: post ->
     List.NoDup (map bsi_ParentID (pre ++ [x])) ->
     unlocks_from bsi_Unlocker t 0 pre ->
     Unlock (bsi_Unlocker x) (uint64 (Z.of_nat (length pre))) t = Some e ->
     List.NoDup (map ci_ParentID (CoinInputs t)) ->
     unlocks_from ci_Unlocker t 0 (CoinInputs t) ->
     validSignatures t currentHeight = Some e).
Proof.
  assert (Hnone : validSignatures t currentHeight = None <->
    List.NoDup (map ci_ParentID (CoinInputs t)) /\
    unlocks_from ci_Unlocker t 0 (CoinInputs t) /\
    List.NoDup (map bsi_ParentID (BlockStakeInputs t)) /\
    unlocks_from bsi_Unlocker t 0 (BlockStakeInputs t)).
  { unfold validSignatures.
    pose proof (coinInputsLoop_None t (CoinInputs t) ∅ 0) as Hc.
    pose proof (blockStakeInputsLoop_None t (BlockStakeInputs t) ∅ 0) as Hb.
    destruct (coinInputsLoop t ∅ 0 (CoinInputs t)) as [e|].
    - split; [discriminate|]. intros (Hnd & Hu & _).
      assert (Some e = None) as Habs; [|discriminate Habs].
      apply Hc. split; [exact Hnd|]. split; [|exact Hu].
      intros id _. apply not_elem_of_empty.
    - destruct Hc as [Hc _]. destruct (Hc eq_refl) as (Hnd & _ & Hu).
      rewrite Hb. split.
      + intros (Hnd' & _ & Hu'). tauto.
      + intros (_ & _ & Hnd' & Hu'). split; [exact Hnd'|]. split; [|exact Hu'].
        intros id _. apply not_elem_of_empty. }
  split; [|split; [|split; [|split; [|split]]]].
  - intros pre x post Heq Hdup Hu. unfold validSignatures. rewrite Heq.
    rewrite (coinInputsLoop_double_spend t pre ∅ 0 x post); auto.
  - intros pre x post Heq Hdup Hu Hnd Huc. unfold validSignatures.
    assert (Hc : coinInputsLoop t ∅ 0 (CoinInputs t) = None).
    { apply coinInputsLoop_None. split; [exact Hnd|]. split; [|exact Huc].
      intros id _. apply not_elem_of_empty. }
    rewrite Hc, Heq.
    apply (blockStakeInputsLoop_double_spend t pre ∅ 0 x post); auto.
  - intros [(pre & x & post & Heq & Hdup)|(pre & x & post & Heq & Hdup)] Hv.
    + apply Hnone in Hv as (Hnd & _). rewrite Heq in Hnd.
      exact (NoDup_map_repeat ci_ParentID pre x post Hdup Hnd).
    + apply Hnone in Hv as (_ & _ & Hnd & _). rewrite Heq in Hnd.
      exact (NoDup_map_repeat bsi_ParentID pre x post Hdup Hnd).
  - exact Hnone.
  - intros pre x post e Heq Hnd Hu Hx. unfold validSignatures. rewrite Heq.
    rewrite (coinInputsLoop_unlock_error t pre ∅ 0 x post e Hnd); auto.
    intros id _. apply not_elem_of_empty.
  - intros pre x post e Heq Hnd Hu Hx Hndc Huc. unfold validSignatures.
    assert (Hc : coinInputsLoop t ∅ 0 (CoinInputs t) = None).
    { apply coinInputsLoop_None. split; [exact Hndc|]. split; [|exact Huc].
      intros id _. apply not_elem_of_empty. }
    rewrite Hc, Heq.
    apply (blockStakeInputsLoop_unlock_error t pre ∅ 0 x post e Hnd); auto.
    intros id _. apply not_elem_of_empty.
Qed.

(** C10: a transaction without coin inputs and without block-stake inputs
    passes [validSignatures] at every height. *)
Theorem validSignatures_no_inputs (t : Transaction U Sg)
    (currentHeight : BlockHeight) :
  CoinInputs t = [] -> BlockStakeInputs t = [] ->
  validSignatures t currentHeight = None.
Proof.
  intros Hc Hb. unfold validSignatures. rewrite Hc, Hb. reflexivity.
Qed.

End validSignatures_facts.

Section validSignatures_examples.
Import mach big types spec model.

(** C3, as stated, fails: the repeated coin input is never reached when an
    earlier [Unlock] fails, and that first error is returned. *)
Lemma validSignatures_first_error_wins :
  coin_double_spend tx_unsigned_then_repeat /\
  validSignatures tx_unsigned_then_repeat 0 = Some ErrMissingSignatures /\
  ~ double_spend_claim tx_unsigned_then_repeat.
Proof.
  assert (Hd : coin_double_spend tx_unsigned_then_repeat).
  { exists [ {| ci_ParentID := 1; ci_Unlocker := Unsigned uh1 |};
             {| ci_ParentID := 2; ci_Unlocker := Fulfilled uh1 |} ],
           {| ci_ParentID := 2; ci_Unlocker := Fulfilled uh1 |}, [].
    split; [reflexivity|]. simpl. right. left. reflexivity. }
  split; [exact Hd|]. split; [vm_compute; reflexivity|].
  intros Hclaim. specialize (Hclaim Hd 0). vm_compute in Hclaim. discriminate.
Qed.

Lemma validSignatures_double_spend_witness :
  validSignatures tx_repeat 0 = Some ErrDoubleSpend /\
  validSignatures tx_shared_id 0 = None /\
  validSignatures tx_unsigned_then_repeat 0 = Some ErrMissingSignatures.
Proof.
  split; [|split].
  - apply (proj1 (validSignatures_double_spend tx_repeat 0)
             [ {| ci_ParentID := 7; ci_Unlocker := Fulfilled uh1 |} ]
             {| ci_ParentID := 7; ci_Unlocker := Fulfilled uh1 |} []).
    + reflexivity.
    + simpl. left. reflexivity.
    + intros [|k] i Hk; simpl in Hk; [|discriminate].
      injection Hk as <-. reflexivity.
  - vm_compute. reflexivity.
  - destruct (validSignatures_double_spend tx_unsigned_then_repeat 0)
      as (_ & _ & _ & _ & Hfirst & _).
    apply (Hfirst [] {| ci_ParentID := 1; ci_Unlocker := Unsigned uh1 |}
             [ {| ci_ParentID := 2; ci_Unlocker := Fulfilled uh1 |};
               {| ci_ParentID := 2; ci_Unlocker := Fulfilled uh1 |} ]).
    + reflexivity.
    + simpl. constructor; [intros [] | constructor].
    + intros k i Hk. discriminate.
    + reflexivity.
Defined.

Lemma validSignatures_no_inputs_witness :
  validSignatures tx_no_inputs 0 = None /\
  validSignatures tx_no_inputs (2 ^ 64 - 1) = None.
Proof.
  split; apply validSignatures_no_inputs; reflexivity.
Defined.

End validSignatures_examples.

(** ** Retargeting: [targetAdjustmentBase] *)

Section targetAdjustmentBase_facts.
Import mach big types consensus spec.
Context {Target Body D1 D2 D3 : Type} {storage : Storage Target Body D1 D2 D3}.
Context (cts : ChainConstants).

Local Abbreviation pBlock := (processedBlock Target Body D1 D2 D3).

Lemma DefaultChainConstants_retarget (release : string) (now : Timestamp) :
  retarget_constants (DefaultChainConstants release now).
Proof.
  unfold DefaultChainConstants, retarget_constants.
  destruct (String.eqb release "dev"); [simpl; lia|].
  destruct (String.eqb release "testing"); simpl; lia.
Qed.

Lemma nthAncestor_step blockMap (pb : pBlock) (k : nat) :
  nthAncestor blockMap pb (S (S k))
  = headerParent blockMap (nthAncestor blockMap pb (S k)).
Proof. reflexivity. Qed.

(** The loop started after [j] steps, with enough fuel, stops after the
    number of steps [window_size] describes, at that ancestor. *)
Lemma windowLoop_from blockMap (pb : pBlock) :
  TargetWindow cts < 2 ^ 64 ->
  forall fuel j,
  Z.of_nat j <= TargetWindow cts ->
  (Z.to_nat (TargetWindow cts) - j < fuel)%nat ->
  (forall i, (i < j)%nat -> nthAncestor blockMap pb (S i) <> 0) ->
  exists ws,
    windowLoop cts blockMap fuel (Z.of_nat j)
      (nthAncestor blockMap pb (S j)) (nthAncestor blockMap pb j)
    = Some (Z.of_nat ws, nthAncestor blockMap pb ws)
    /\ (j <= ws)%nat /\ window_size cts blockMap pb ws.
Proof.
  intros Htw. induction fuel as [|fuel IH]; intros j Hj Hfuel Hpast; [lia|].
  cbn [windowLoop].
  destruct (Z.ltb_spec (Z.of_nat j) (TargetWindow cts)) as [Hlt|Hge].
  - destruct (Z.eqb_spec (nthAncestor blockMap pb (S j)) 0) as [Hz|Hnz].
    + exists j. cbn [andb negb]. split; [reflexivity|]. split; [lia|].
      split; [lia|]. split; [right; exact Hz | exact Hpast].
    + cbn [andb negb].
      destruct (UnmarshalBlockHeadersParentIDAndTS
                  (Get blockMap (nthAncestor blockMap pb (S j))))
        as [parentID ts] eqn:Hhdr.
      assert (Hp : parentID = nthAncestor blockMap pb (S (S j))).
      { rewrite nthAncestor_step. unfold headerParent. rewrite Hhdr. reflexivity. }
      rewrite Hp.
      replace (uint64 (Z.of_nat j + 1)) with (Z.of_nat (S j))
        by (rewrite uint64_id; [lia | unfold is_uint64; lia]).
      destruct (IH (S j)) as (ws & Hloop & Hle & Hws); [lia | lia | |].
      * intros i Hi. destruct (Nat.eq_dec i j) as [->|Hne]; [exact Hnz|].
        apply Hpast. lia.
      * exists ws. split; [exact Hloop|]. split; [lia | exact Hws].
  - exists j. cbn [andb]. split; [reflexivity|]. split; [lia|].
    split; [lia|]. split; [left; lia | exact Hpast].
Qed.

Lemma windowLoop_total blockMap (pb : pBlock) :
  0 <= TargetWindow cts < 2 ^ 64 ->
  exists ws,
    windowLoop cts blockMap (S (Z.to_nat (TargetWindow cts))) 0
      (ParentID (Block_ pb)) (ID (Block_ pb))
    = Some (Z.of_nat ws, nthAncestor blockMap pb ws)
    /\ window_size cts blockMap pb ws.
Proof.
  intros Htw.
  destruct (windowLoop_from blockMap pb (proj2 Htw)
              (S (Z.to_nat (TargetWindow cts))) 0%nat)
    as (ws & Hloop & _ & Hws); [simpl; lia | lia | intros; lia |].
  exists ws. split; [exact Hloop | exact Hws].
Qed.

(** Two walk lengths of the same node agree. *)
Lemma window_size_unique blockMap (pb : pBlock) ws ws' :
  window_size cts blockMap pb ws -> window_size cts blockMap pb ws' -> ws = ws'.
Proof.
  intros (Hle & Hstop & Hmin) (Hle' & Hstop' & Hmin').
  destruct (Nat.lt_trichotomy ws ws') as [Hlt|[Heq|Hgt]]; [|exact Heq|].
  - destruct Hstop as [Htw|Hz]; [lia|]. exfalso. apply (Hmin' ws Hlt Hz).
  - destruct Hstop' as [Htw|Hz]; [lia|]. exfalso. apply (Hmin ws' Hgt Hz).
Qed.

Lemma window_size_positive blockMap (pb : pBlock) ws :
  0 < TargetWindow cts -> ParentID (Block_ pb) <> 0 ->
  window_size cts blockMap pb ws -> (1 <= ws)%nat.
Proof.
  intros Htw Hparent (_ & Hstop & _). destruct ws; [|lia].
  destruct Hstop as [Hz|Hz]; [simpl in Hz; lia | contradiction].
Qed.

Lemma NewRat_pos_den (a b : Z) :
  0 < b -> NewRat a b = Some (Q2Qc (Qmake a (Z.to_pos b))).
Proof.
  intros Hb. unfold NewRat.
  destruct (Z.eqb_spec b 0); [lia|].
  rewrite Z.sgn_pos, Z.abs_eq, Z.mul_1_l by lia. reflexivity.
Qed.

(** What [targetAdjustmentBase] computes for a node that has a parent: the
    64-bit difference of the node's own timestamp and the window-start
    timestamp, read as [int64], over [BlockFrequency * windowSize]. *)
Lemma targetAdjustmentBase_eq blockMap (pb : pBlock) :
  retarget_constants cts -> ParentID (Block_ pb) <> 0 ->
  exists ws, window_size cts blockMap pb ws /\ (1 <= ws)%nat /\
    targetAdjustmentBase cts blockMap pb
    = Some (Q2Qc (Qmake
        (int64 (uint64 (Timestamp_ (Block_ pb)
                        - headerTimestamp blockMap (nthAncestor blockMap pb ws))))
        (Z.to_pos (BlockFrequency cts * Z.of_nat ws)))).
Proof.
  intros (Hbf & Htw & Hprod) Hparent.
  assert (Htw64 : 0 <= TargetWindow cts < 2 ^ 64) by nia.
  destruct (windowLoop_total blockMap pb Htw64) as (ws & Hloop & Hws).
  pose proof (window_size_positive blockMap pb ws ltac:(lia) Hparent Hws) as Hpos.
  exists ws. split; [exact Hws|]. split; [exact Hpos|].
  unfold targetAdjustmentBase. cbv zeta. rewrite Hloop.
  unfold headerTimestamp.
  destruct (UnmarshalBlockHeadersParentIDAndTS
              (Get blockMap (nthAncestor blockMap pb ws))) as [p ts].
  cbn [snd].
  assert (Hexp : 0 < BlockFrequency cts * Z.of_nat ws < 2 ^ 63).
  { destruct Hws as (Hle & _). nia. }
  rewrite (uint64_id (BlockFrequency cts * Z.of_nat ws))
    by (unfold is_uint64; lia).
  rewrite (int64_small (BlockFrequency cts * Z.of_nat ws)) by lia.
  apply NewRat_pos_den. lia.
Qed.

(** A node with the zero parent ID makes the window empty, and
    [big.NewRat] panics on the zero expected time. *)
Lemma targetAdjustmentBase_no_parent blockMap (pb : pBlock) :
  0 <= TargetWindow cts ->
  ParentID (Block_ pb) = 0 -> targetAdjustmentBase cts blockMap pb = None.
Proof.
  intros Htw Hz. unfold targetAdjustmentBase. cbv zeta. rewrite Hz.
  cbn [windowLoop]. cbn [Z.eqb negb]. rewrite andb_false_r.
  destruct (UnmarshalBlockHeadersParentIDAndTS _) as [p ts].
  rewrite Z.mul_0_r. reflexivity.
Qed.

Lemma int64_uint64_exact (d : Z) :
  - 2 ^ 63 <= d < 2 ^ 63 -> int64 (uint64 d) = d.
Proof.
  intros Hd. destruct (Z.lt_ge_cases d 0) as [Hneg|Hpos].
  - apply int64_neg. lia.
  - rewrite uint64_id by (unfold is_uint64; lia). apply int64_small. lia.
Qed.

(** C2 (amended): for a node that has a parent, [targetAdjustmentBase] walks
    [ws] blocks back, [1 <= ws <= TargetWindow], stopping before
    [TargetWindow] only at a block whose parent ID is zero, and returns the
    exact ratio of [timePassed], the node's own timestamp minus the timestamp
    of the window-start block (when that difference fits [int64]), to
    [BlockFrequency * ws]. *)
Theorem targetAdjustmentBase_ratio blockMap (pb : pBlock) :
  retarget_constants cts -> ParentID (Block_ pb) <> 0 ->
  exists ws, window_size cts blockMap pb ws /\ (1 <= ws)%nat /\
    let timePassed :=
      Timestamp_ (Block_ pb)
      - headerTimestamp blockMap (nthAncestor blockMap pb ws) in
    let expectedTimePassed := BlockFrequency cts * Z.of_nat ws in
    - 2 ^ 63 <= timePassed < 2 ^ 63 ->
    targetAdjustmentBase cts blockMap pb = own_elapsed_ratio cts blockMap pb ws /\
    targetAdjustmentBase cts blockMap pb
    = Some (Q2Qc (Qmake timePassed (Z.to_pos expectedTimePassed))) /\
    0 < expectedTimePassed.
Proof.
  intros Hc Hparent.
  destruct (targetAdjustmentBase_eq blockMap pb Hc Hparent)
    as (ws & Hws & Hpos & Heq).
  exists ws. split; [exact Hws|]. split; [exact Hpos|].
  intros timePassed expectedTimePassed Hfit.
  assert (Hexp : 0 < expectedTimePassed).
  { destruct Hc as (Hbf & _). subst expectedTimePassed. nia. }
  rewrite Heq. fold timePassed. rewrite (int64_uint64_exact timePassed Hfit).
  split; [|split; [reflexivity | exact Hexp]].
  unfold own_elapsed_ratio. fold timePassed.
  symmetry. apply NewRat_pos_den. exact Hexp.
Qed.

(** C9 (amended): when the node's timestamp is below the window-start
    timestamp, the 64-bit difference wraps to the true difference plus
    [2^64]; read as [int64] it is the true negative elapsed time again when
    the gap is at most [2^63], and the positive wrapped value only for a
    larger gap; a ratio is returned in both cases. *)
Theorem targetAdjustmentBase_wraps blockMap (pb : pBlock) :
  retarget_constants cts -> ParentID (Block_ pb) <> 0 ->
  is_uint64 (Timestamp_ (Block_ pb)) ->
  (forall id, is_uint64 (headerTimestamp blockMap id)) ->
  exists ws, window_size cts blockMap pb ws /\
    let start := headerTimestamp blockMap (nthAncestor blockMap pb ws) in
    let timePassed := uint64 (Timestamp_ (Block_ pb) - start) in
    let expectedTimePassed := BlockFrequency cts * Z.of_nat ws in
    Timestamp_ (Block_ pb) < start ->
    timePassed = Timestamp_ (Block_ pb) - start + 2 ^ 64 /\
    targetAdjustmentBase cts blockMap pb
    = Some (Q2Qc (Qmake (int64 timePassed) (Z.to_pos expectedTimePassed))) /\
    (start - Timestamp_ (Block_ pb) <= 2 ^ 63 ->
       int64 timePassed = Timestamp_ (Block_ pb) - start /\
       targetAdjustmentBase cts blockMap pb
       = own_elapsed_ratio cts blockMap pb ws) /\
    (2 ^ 63 < start - Timestamp_ (Block_ pb) ->
       int64 timePassed = timePassed /\ 0 < timePassed).
Proof.
  intros Hc Hparent Hts Hhdr.
  destruct (targetAdjustmentBase_eq blockMap pb Hc Hparent)
    as (ws & Hws & Hpos & Heq).
  exists ws. split; [exact Hws|].
  intros start timePassed expectedTimePassed Hlt.
  specialize (Hhdr (nthAncestor blockMap pb ws)). fold start in Hhdr.
  unfold is_uint64 in Hts, Hhdr.
  assert (Hwrap : timePassed = Timestamp_ (Block_ pb) - start + 2 ^ 64).
  { subst timePassed. unfold uint64. symmetry.
    apply (Z.mod_unique _ (2 ^ 64) (-1)); lia. }
  split; [exact Hwrap|]. split; [exact Heq|]. split.
  - intros Hgap.
    assert (Hi : int64 timePassed = Timestamp_ (Block_ pb) - start).
    { subst timePassed. apply int64_neg. lia. }
    split; [exact Hi|].
    rewrite Heq. fold start. fold timePassed. rewrite Hi.
    unfold own_elapsed_ratio. fold start.
    symmetry. apply NewRat_pos_den.
    destruct Hc as (Hbf & _). nia.
  - intros Hgap. split; [|lia].
    apply int64_small. lia.
Qed.

End targetAdjustmentBase_facts.

Section targetAdjustmentBase_examples.
Import mach big types consensus spec model.

Lemma option_Qc_eq (a b : option Qc) :
  option_map this a = option_map this b -> a = b.
Proof.
  destruct a as [x|], b as [y|]; simpl; intros Heq; try discriminate;
    [|reflexivity].
  f_equal. apply Qc_is_canon. injection Heq as ->. reflexivity.
Qed.

Lemma chain_window : window_size stdConstants chain_bucket chain_node 2.
Proof.
  split; [vm_compute; discriminate|]. split; [right; vm_compute; reflexivity|].
  intros [|[|i]] Hi; [vm_compute; discriminate | vm_compute; discriminate | lia].
Qed.

Lemma back_window : window_size stdConstants back_bucket back_node 2.
Proof.
  split; [vm_compute; discriminate|]. split; [right; vm_compute; reflexivity|].
  intros [|[|i]] Hi; [vm_compute; discriminate | vm_compute; discriminate | lia].
Qed.

(** C2, as stated, fails: the elapsed time is measured from the node's own
    timestamp (100), not from its parent's (50): the ratio is 100/1200, the
    specification's is 50/1200. *)
Lemma targetAdjustmentBase_uses_own_timestamp :
  option_map this (targetAdjustmentBase stdConstants chain_bucket chain_node)
  = Some (1 # 12)%Q /\
  option_map this (parent_elapsed_ratio stdConstants chain_bucket chain_node 2)
  = Some (1 # 24)%Q /\
  ~ targetAdjustmentBase_claim stdConstants chain_bucket chain_node.
Proof.
  split; [vm_compute; reflexivity|]. split; [vm_compute; reflexivity|].
  intros (ws & Hws & Heq).
  rewrite (window_size_unique stdConstants _ _ _ _ Hws chain_window) in Heq.
  apply (f_equal (option_map this)) in Heq. vm_compute in Heq. discriminate.
Qed.

(** C9, as stated, fails: with timestamps 5 and 10 the wrapped difference
    [2^64 - 5] read as [int64] is [-5], and the ratio returned is the ratio of
    the true negative elapsed time, -5/1200. *)
Lemma targetAdjustmentBase_negative_is_exact :
  Timestamp_ (Block_ back_node)
    < headerTimestamp back_bucket (nthAncestor back_bucket back_node 2) /\
  option_map this (targetAdjustmentBase stdConstants back_bucket back_node)
  = Some (-1 # 240)%Q /\
  ~ wrapped_ratio_claim stdConstants back_bucket back_node.
Proof.
  split; [vm_compute; reflexivity|]. split; [vm_compute; reflexivity|].
  intros Hclaim. apply (Hclaim 2%nat back_window); [vm_compute; reflexivity|].
  apply option_Qc_eq. vm_compute. reflexivity.
Qed.

Lemma targetAdjustmentBase_ratio_witness :
  exists ws, window_size stdConstants chain_bucket chain_node ws /\
    targetAdjustmentBase stdConstants chain_bucket chain_node
    = own_elapsed_ratio stdConstants chain_bucket chain_node ws.
Proof.
  destruct (targetAdjustmentBase_ratio stdConstants chain_bucket chain_node
              (DefaultChainConstants_retarget "standard" 0)
              ltac:(vm_compute; discriminate))
    as (ws & Hws & Hpos & Hratio).
  exists ws. split; [exact Hws|].
  rewrite (window_size_unique stdConstants _ _ _ _ Hws chain_window) in Hratio |- *.
  apply Hratio. vm_compute. split; [discriminate | reflexivity].
Defined.

Lemma targetAdjustmentBase_wraps_witness :
  exists ws, window_size stdConstants back_bucket back_node ws /\
    targetAdjustmentBase stdConstants back_bucket back_node
    = own_elapsed_ratio stdConstants back_bucket back_node ws.
Proof.
  assert (Hhdr : forall id, is_uint64 (headerTimestamp back_bucket id)).
  { intros id. unfold headerTimestamp, Get, back_bucket, demoBucket. simpl.
    unfold Put.
    destruct (decide (id = 1)) as [->|H1]; [vm_compute; split; congruence|].
    destruct (decide (id = 2)) as [->|H2]; [vm_compute; split; congruence|].
    rewrite !lookup_insert_ne, lookup_empty by congruence.
    vm_compute. split; congruence. }
  destruct (targetAdjustmentBase_wraps stdConstants back_bucket back_node
              (DefaultChainConstants_retarget "standard" 0)
              ltac:(vm_compute; discriminate)
              ltac:(vm_compute; split; congruence) Hhdr)
    as (ws & Hws & Hwrap).
  exists ws. split; [exact Hws|].
  rewrite (window_size_unique stdConstants _ _ _ _ Hws back_window) in Hwrap |- *.
  destruct Hwrap as (_ & _ & Hsmall & _); [vm_compute; reflexivity|].
  apply Hsmall. vm_compute. discriminate.
Defined.

End targetAdjustmentBase_examples.

(** ** Retargeting: [setChildTarget] and [newChild] *)

Section setChildTarget_facts.
Import mach big types consensus spec.
Context {Target Body D1 D2 D3 : Type} {target : TargetOps Target}
  {storage : Storage Target Body D1 D2 D3}.
Context (cts : ChainConstants).

Local Abbreviation pBlock := (processedBlock Target Body D1 D2 D3).

Lemma half_window_nonzero :
  retarget_constants cts -> (TargetWindow cts / 2 =? 0) = false.
Proof.
  intros (_ & Htw & _). apply Z.eqb_neq.
  assert (1 <= TargetWindow cts / 2) by (apply Z.div_le_lower_bound; lia).
  lia.
Qed.

(** C4 (amended): for a node that has a parent, with [parent] the node the
    bucket holds under the node's [ParentID], [setChildTarget] returns the
    node with its [ChildTarget] set, and that [ChildTarget] is the parent's,
    unchanged, when the node's [Height] is not a multiple of
    [TargetWindow/2], and the parent's [ChildTarget], as a rational, times the
    clamped adjustment ratio, converted back to a target, when the [Height] is
    such a multiple. *)
Theorem setChildTarget_spec blockMap (pb parent : pBlock) (err : bool) :
  retarget_constants cts ->
  Unmarshal (Get blockMap (ParentID (Block_ pb))) = (parent, err) ->
  DEBUG && err = false ->
  (Height pb mod (TargetWindow cts / 2) <> 0 ->
   exists pb',
     setChildTarget cts blockMap pb = Some pb' /\
     ChildTarget pb' = ChildTarget parent /\
     pb' = with_ChildTarget pb (ChildTarget parent)) /\
  (Height pb mod (TargetWindow cts / 2) = 0 ->
   ParentID (Block_ pb) <> 0 ->
   exists base pb',
     targetAdjustmentBase cts blockMap pb = Some base /\
     setChildTarget cts blockMap pb = Some pb' /\
     ChildTarget pb'
     = RatToTarget (Rat (ChildTarget parent)
                    * clampTargetAdjustment cts base)%Qc /\
     pb' = with_ChildTarget pb (ChildTarget pb')).
Proof.
  intros Hc Hparent Hdebug.
  pose proof (half_window_nonzero Hc) as Hhalf.
  split.
  - intros Hmod. exists (with_ChildTarget pb (ChildTarget parent)).
    split; [|split; reflexivity].
    unfold setChildTarget. cbv zeta.
    rewrite Hparent, Hdebug, Hhalf.
    destruct (Z.eqb_spec (Height pb mod (TargetWindow cts / 2)) 0);
      [contradiction | reflexivity].
  - intros Hmod Hnz.
    destruct (targetAdjustmentBase_eq cts blockMap pb Hc Hnz)
      as (ws & _ & _ & Hbase).
    match type of Hbase with _ = Some ?q => set (base := q) in Hbase end.
    exists base,
      (with_ChildTarget pb
         (RatToTarget (Rat (ChildTarget parent)
                       * clampTargetAdjustment cts base)%Qc)).
    split; [exact Hbase|]. split; [|split; reflexivity].
    unfold setChildTarget. cbv zeta.
    rewrite Hparent, Hdebug, Hhalf, Hmod, Hbase. reflexivity.
Qed.

(** What [newChild] builds before and after [setChildTarget]. *)
Lemma newChild_fields blockMap (pb : pBlock) (b : Block Body) child blockMap' :
  newChild cts blockMap pb b = Some (child, blockMap') ->
  Block_ child = b /\
  Height child = uint64 (Height pb + 1) /\
  Depth child = childDepth pb /\
  blockMap' = Put blockMap (ID b) (Marshal child).
Proof.
  unfold newChild, setChildTarget. cbv zeta. cbn [Block_ Height ParentID].
  destruct (Unmarshal (Get blockMap (ParentID b))) as [parent err].
  destruct (DEBUG && err); [discriminate|].
  destruct (TargetWindow cts / 2 =? 0); [discriminate|].
  destruct (negb _).
  - intros Heq. injection Heq as <- <-. repeat split.
  - destruct (targetAdjustmentBase _ _ _); [|discriminate].
    intros Heq. injection Heq as <- <-. repeat split.
Qed.

(** [newChild] returns whenever the block has a parent ID and the [DEBUG]
    check passes. *)
Lemma newChild_returns blockMap (pb : pBlock) (b : Block Body) :
  retarget_constants cts -> ParentID b <> 0 ->
  DEBUG && snd (Unmarshal (Get blockMap (ParentID b))) = false ->
  exists child blockMap', newChild cts blockMap pb b = Some (child, blockMap').
Proof.
  intros Hc Hnz Hdebug. unfold newChild, setChildTarget. cbv zeta.
  cbn [Block_ Height ParentID].
  destruct (Unmarshal (Get blockMap (ParentID b))) as [parent err].
  cbn [snd] in Hdebug. rewrite Hdebug, (half_window_nonzero Hc).
  destruct (negb _); [eauto|].
  match goal with |- context [targetAdjustmentBase cts blockMap ?c] =>
    destruct (targetAdjustmentBase_eq cts blockMap c Hc Hnz)
      as (ws & _ & _ & Hbase) end.
  rewrite Hbase. eauto.
Qed.

End setChildTarget_facts.

Section newChild_facts.
Import mach big types consensus spec model.
Context {Body D1 D2 D3 : Type} {storage : Storage N Body D1 D2 D3}.
Context (cts : ChainConstants).

(** Adding a difficulty never gives a numerically larger target: the sum is
    at least as heavy as the depth it starts from. *)
Lemma TargetAddDifficulties_le (x y : N) : (TargetAddDifficulties x y <= x)%N.
Proof.
  unfold TargetAddDifficulties, IntToTarget.
  destruct (Z.ltb_spec (Z.of_N (x * y / (x + y))%N) 0) as [Hneg|_]; [lia|].
  rewrite N2Z.id.
  assert (Hq : (x * y / (x + y) <= x)%N).
  { apply N.Div0.div_le_upper_bound. nia. }
  lia.
Qed.

(** C6 (amended): for a parent whose [Height] is below [2^64 - 1], every
    child [newChild] creates has [Height] the parent's plus one and [Depth]
    the parent's [childDepth], the parent's [Depth] with the difficulty of
    its [ChildTarget] added; as a target that depth is never numerically
    larger than the parent's, so the accumulated weight does not decrease
    along the edge. A child is created whenever the block names a parent and
    the [DEBUG] check passes. *)
Theorem newChild_height_depth blockMap
    (pb : processedBlock N Body D1 D2 D3) (b : Block Body) :
  0 <= Height pb < 2 ^ 64 - 1 ->
  (forall child blockMap',
     newChild cts blockMap pb b = Some (child, blockMap') ->
     Height child = Height pb + 1 /\
     Depth child = childDepth pb /\
     Depth child = TargetAddDifficulties (Depth pb) (ChildTarget pb) /\
     (Depth child <= Depth pb)%N /\
     Cmp (Depth child) (Depth pb) <= 0) /\
  (retarget_constants cts -> ParentID b <> 0 ->
   DEBUG && snd (Unmarshal (Get blockMap (ParentID b))) = false ->
   exists child blockMap', newChild cts blockMap pb b = Some (child, blockMap')).
Proof.
  intros Hh. split.
  - intros child blockMap' Hnew.
    destruct (newChild_fields cts blockMap pb b child blockMap' Hnew)
      as (_ & Hheight & Hdepth & _).
    split; [rewrite Hheight; apply uint64_id; unfold is_uint64; lia|].
    split; [exact Hdepth|]. split; [exact Hdepth|].
    assert (Hle : (Depth child <= Depth pb)%N).
    { rewrite Hdepth. apply TargetAddDifficulties_le. }
    split; [exact Hle|].
    cbn [Cmp specTarget]. unfold TargetCmp.
    destruct (N.compare_spec (Depth child) (Depth pb)); lia.
  - intros Hc Hnz Hdebug. exact (newChild_returns cts blockMap pb b Hc Hnz Hdebug).
Qed.

End newChild_facts.

Section newChild_examples.
Import mach big types consensus spec model.

Lemma chain_parent_decodes :
  Unmarshal (Get chain_bucket 2) = (chain_parent, false).
Proof. vm_compute. reflexivity. Qed.

Lemma setChildTarget_spec_witness :
  (exists pb',
     setChildTarget stdConstants chain_bucket chain_node = Some pb' /\
     ChildTarget pb' = 1000%N) /\
  exists base pb',
    targetAdjustmentBase stdConstants chain_bucket retarget_node = Some base /\
    setChildTarget stdConstants chain_bucket retarget_node = Some pb' /\
    ChildTarget pb'
    = TargetFromRat (TargetRat 1000 * clampTargetAdjustment stdConstants base)%Qc.
Proof.
  split.
  - destruct (proj1 (setChildTarget_spec stdConstants chain_bucket chain_node
                       chain_parent false
                       (DefaultChainConstants_retarget "standard" 0)
                       chain_parent_decodes eq_refl))
      as (pb' & Hset & Htarget & _).
    + vm_compute. discriminate.
    + exists pb'. split; [exact Hset | exact Htarget].
  - destruct (proj2 (setChildTarget_spec stdConstants chain_bucket retarget_node
                       chain_parent false
                       (DefaultChainConstants_retarget "standard" 0)
                       chain_parent_decodes eq_refl))
      as (base & pb' & Hbase & Hset & Htarget & _).
    + vm_compute. reflexivity.
    + vm_compute. discriminate.
    + exists base, pb'. split; [exact Hbase|]. split; [exact Hset | exact Htarget].
Defined.

(** C4, as stated, fails for a node without parent at a retarget height:
    the genesis node (zero [ParentID], height 0) has an empty window,
    [big.NewRat] panics on the zero expected time, and no [ChildTarget] is
    set. *)
Lemma setChildTarget_genesis_panics :
  ParentID (Block_ chain_genesis) = 0 /\
  Height chain_genesis mod (TargetWindow stdConstants / 2) = 0 /\
  setChildTarget stdConstants chain_bucket chain_genesis = None /\
  ~ setChildTarget_claim stdConstants chain_bucket chain_genesis.
Proof.
  split; [reflexivity|]. split; [reflexivity|].
  assert (Hnone : setChildTarget stdConstants chain_bucket chain_genesis = None)
    by (vm_compute; reflexivity).
  split; [exact Hnone|].
  intros [_ Hretarget].
  destruct (Hretarget eq_refl) as (pb' & base & Hset & _).
  rewrite Hnone in Hset. discriminate.
Qed.

(** C6, as stated, fails at the last height: [pb.Height + 1] wraps, and the
    child of a parent at height [2^64 - 1] is at height 0. *)
Lemma newChild_height_wraps :
  is_uint64 (Height last_height_parent) /\
  option_map (fun r => Height (fst r))
    (newChild stdConstants chain_bucket last_height_parent child_block)
  = Some 0 /\
  option_map (fun r => Height (fst r))
    (newChild stdConstants chain_bucket last_height_parent child_block)
  <> Some (Height last_height_parent + 1).
Proof.
  split; [vm_compute; split; congruence|].
  split; [vm_compute; reflexivity | vm_compute; discriminate].
Qed.

Lemma newChild_height_depth_witness :
  exists child blockMap',
    newChild stdConstants chain_bucket chain_parent child_block
    = Some (child, blockMap') /\
    Height child = 2 /\ Depth child = 333%N /\ (Depth child <= 500)%N.
Proof.
  destruct (newChild_height_depth stdConstants chain_bucket chain_parent
              child_block ltac:(vm_compute; split; [discriminate | reflexivity]))
    as [Hfields Hreturns].
  destruct (Hreturns (DefaultChainConstants_retarget "standard" 0)
              ltac:(vm_compute; discriminate) eq_refl)
    as (child & blockMap' & Hnew).
  destruct (Hfields child blockMap' Hnew) as (Hheight & _ & Hdepth & Hle & _).
  exists child, blockMap'. split; [exact Hnew|]. split; [exact Hheight|].
  split; [rewrite Hdepth; vm_compute; reflexivity | exact Hle].
Defined.

End newChild_examples.

Section InputSigHash_examples.
Import mach big types spec model.

Lemma InputSigHash_excludes_signatures_witness :
  InputSigHash tx_repeat_resigned 1 = InputSigHash tx_repeat 1.
Proof.
  apply (proj2 (proj2 (InputSigHash_excludes_signatures tx_repeat 1))
           tx_repeat_resigned).
  repeat split; reflexivity.
Defined.

End InputSigHash_examples.

(** ** Public keys: [LoadString], [String] and [Ed25519PublicKey] *)

Section keys_facts.
Import mach types keys.

Lemma Split_nonempty s sep : Split s sep <> [].
Proof.
  destruct s as [|c s]; simpl; [discriminate|].
  destruct (Byte.eqb c sep); [discriminate|].
  destruct (Split s sep); discriminate.
Qed.

(** [strings.Split] returns one piece more than there are separators. *)
Lemma Split_length s sep :
  length (Split s sep) = S (count_occ Byte.byte_eq_dec s sep).
Proof.
  induction s as [|c s IH]; [reflexivity|]. simpl.
  destruct (Byte.eqb c sep) eqn:Heq.
  - apply Byte.byte_dec_bl in Heq. subst c.
    destruct (Byte.byte_eq_dec sep sep); [|contradiction].
    simpl. rewrite IH. reflexivity.
  - apply Byte.eqb_false in Heq.
    destruct (Byte.byte_eq_dec c sep); [contradiction|].
    pose proof (Split_nonempty s sep) as Hne.
    destruct (Split s sep); [contradiction | exact IH].
Qed.

Lemma Split_no_sep s sep : ~ In sep s -> Split s sep = [s].
Proof.
  induction s as [|c s IH]; intros Hnin; [reflexivity|]. simpl.
  destruct (Byte.eqb c sep) eqn:Heq.
  - apply Byte.byte_dec_bl in Heq. subst c. exfalso. apply Hnin. left. reflexivity.
  - rewrite IH; [reflexivity|]. intros Hin. apply Hnin. right. exact Hin.
Qed.

Lemma Split_first s rest sep :
  ~ In sep s -> Split (s ++ sep :: rest) sep = s :: Split rest sep.
Proof.
  induction s as [|c s IH]; intros Hnin; simpl.
  - rewrite (Byte.byte_dec_lb (eq_refl sep)). reflexivity.
  - destruct (Byte.eqb c sep) eqn:Heq.
    + apply Byte.byte_dec_bl in Heq. subst c. exfalso. apply Hnin. left. reflexivity.
    + rewrite IH; [reflexivity|]. intros Hin. apply Hnin. right. exact Hin.
Qed.

Lemma Split_two p h :
  ~ In colon p -> ~ In colon h -> Split (p ++ colon :: h) colon = [p; h].
Proof.
  intros Hp Hh. rewrite (Split_first p h colon Hp), (Split_no_sep h colon Hh).
  reflexivity.
Qed.

(** The two digits [%x] writes for a byte decode to that byte, and neither
    is a colon. *)
Lemma hex_digits_of_byte (b : Byte.byte) :
  fromHexChar (hexDigit (Byte.to_N b / 16)) = Some (Byte.to_N b / 16)%N /\
  fromHexChar (hexDigit (Byte.to_N b mod 16)) = Some (Byte.to_N b mod 16)%N /\
  Byte.of_N (16 * (Byte.to_N b / 16) + Byte.to_N b mod 16) = Some b /\
  hexDigit (Byte.to_N b / 16) <> colon /\
  hexDigit (Byte.to_N b mod 16) <> colon.
Proof. destruct b; vm_compute; repeat split; discriminate. Qed.

Lemma DecodeString_Sprintf_x (key : list Byte.byte) :
  DecodeString (Sprintf_x key) = Some key.
Proof.
  induction key as [|b key IH]; [reflexivity|].
  destruct (hex_digits_of_byte b) as (Hhi & Hlo & Hb & _).
  change (Sprintf_x (b :: key))
    with (hexDigit (Byte.to_N b / 16) :: hexDigit (Byte.to_N b mod 16)
          :: Sprintf_x key).
  cbn [DecodeString]. rewrite Hhi, Hlo, IH, Hb. reflexivity.
Qed.

Lemma Sprintf_x_no_colon (key : list Byte.byte) : ~ In colon (Sprintf_x key).
Proof.
  induction key as [|b key IH]; [intros []|].
  destruct (hex_digits_of_byte b) as (_ & _ & _ & Hhi & Hlo).
  change (Sprintf_x (b :: key))
    with (hexDigit (Byte.to_N b / 16) :: hexDigit (Byte.to_N b mod 16)
          :: Sprintf_x key).
  intros [Hin|[Hin|Hin]]; [congruence | congruence | exact (IH Hin)].
Qed.

Lemma pair_induction {A : Type} (P : list A -> Prop) :
  P [] -> (forall a, P [a]) -> (forall a b l, P l -> P (a :: b :: l)) ->
  forall l, P l.
Proof.
  intros Hnil Hone Hstep.
  assert (Hboth : forall l, P l /\ forall a, P (a :: l)).
  { induction l as [|b l [IH1 IH2]]; [split; [exact Hnil | exact Hone]|].
    split; [apply IH2|]. intros a. apply Hstep. exact IH1. }
  intros l. apply Hboth.
Qed.

(** [hex.DecodeString] succeeds only on an even number of digits. *)
Lemma DecodeString_Some (h : list Byte.byte) :
  is_Some (DecodeString h) ->
  Nat.Even (length h) /\ Forall (fun c => is_Some (fromHexChar c)) h.
Proof.
  induction h as [| a | a b l IH] using pair_induction.
  - intros _. split; [exists 0%nat; reflexivity | constructor].
  - intros [x Hx]. discriminate.
  - cbn [DecodeString]. intros Hsome.
    destruct (fromHexChar a) as [va|] eqn:Ha;
      [|destruct Hsome as [x Hx]; discriminate].
    destruct (fromHexChar b) as [vb|] eqn:Hb;
      [|destruct Hsome as [x Hx]; discriminate].
    destruct (DecodeString l) as [bytes|];
      [|destruct Hsome as [x Hx]; discriminate].
    destruct (IH ltac:(eauto)) as [[n Hn] Hall].
    split.
    + exists (S n). simpl. rewrite Hn. lia.
    + constructor; [rewrite Ha; eauto|]. constructor; [rewrite Hb; eauto|].
      exact Hall.
Qed.

Lemma ed25519_no_colon : ~ In colon (bytes_of "ed25519").
Proof. vm_compute. intuition discriminate. Qed.

Context (SpecifierLen : nat) (SpecifierString : list Byte.byte -> list Byte.byte).

(** What [LoadString] does with a string of exactly two parts. *)
Lemma LoadString_parts spk p h :
  ~ In colon p -> ~ In colon h ->
  LoadString spk (p ++ colon :: h)
  = match DecodeString h with
    | None => {| Algorithm := Algorithm spk; Key := [] |}
    | Some key => {| Algorithm := copy (Algorithm spk) p; Key := key |}
    end.
Proof.
  intros Hp Hh. unfold LoadString. cbv zeta.
  rewrite (Split_two p h Hp Hh). reflexivity.
Qed.

(** X1: [LoadString] leaves the key as it is when the string does not hold
    exactly one colon. *)
Theorem LoadString_malformed spk (s : list Byte.byte) :
  count_occ Byte.byte_eq_dec s colon <> 1%nat -> LoadString spk s = spk.
Proof.
  intros Hcount. unfold LoadString. cbv zeta. rewrite Split_length.
  destruct (Nat.eqb_spec (S (count_occ Byte.byte_eq_dec s colon)) 2) as [Heq|Hne];
    [lia | reflexivity].
Qed.

Lemma LoadString_malformed_witness :
  LoadString (Ed25519PublicKey 16 [Byte.x01]) (bytes_of "ed25519") 
  = Ed25519PublicKey 16 [Byte.x01] /\
  LoadString (Ed25519PublicKey 16 [Byte.x01]) (bytes_of "a:b:00")
  = Ed25519PublicKey 16 [Byte.x01].
Proof.
  split; apply LoadString_malformed; vm_compute; discriminate.
Defined.

(** X2: with one colon and a second part that is no hexadecimal string (an odd
    number of bytes, or a byte that is no digit), [LoadString] sets the key
    to [nil] and leaves the algorithm as it is. *)
Theorem LoadString_invalid_hex spk (p h : list Byte.byte) :
  ~ In colon p -> ~ In colon h ->
  Nat.Odd (length h) \/ Exists (fun c => fromHexChar c = None) h ->
  LoadString spk (p ++ colon :: h) = {| Algorithm := Algorithm spk; Key := [] |}.
Proof.
  intros Hp Hh Hbad. rewrite (LoadString_parts spk p h Hp Hh).
  destruct (DecodeString h) as [key|] eqn:Hdec; [|reflexivity].
  exfalso. destruct (DecodeString_Some h ltac:(rewrite Hdec; eauto)) as [Heven Hall].
  destruct Hbad as [Hodd|Hex].
  - exact (Nat.Even_Odd_False _ Heven Hodd).
  - apply Exists_exists in Hex as (c & Hin & Hc).
    rewrite Forall_forall in Hall. specialize (Hall c Hin).
    rewrite Hc in Hall. destruct Hall as [x Hx]. discriminate.
Qed.

Lemma LoadString_invalid_hex_witness :
  LoadString (Ed25519PublicKey 16 [Byte.x01]) (bytes_of "ab:0g")
  = {| Algorithm := SignatureEd25519 16; Key := [] |} /\
  LoadString (Ed25519PublicKey 16 [Byte.x01]) (bytes_of "ab:012")
  = {| Algorithm := SignatureEd25519 16; Key := [] |}.
Proof.
  split.
  - apply (LoadString_invalid_hex (Ed25519PublicKey 16 [Byte.x01])
             (bytes_of "ab") (bytes_of "0g")).
    + vm_compute. intros [H|[H|[]]]; discriminate.
    + vm_compute. intros [H|[H|[]]]; discriminate.
    + right. apply Exists_cons_tl, Exists_cons_hd. reflexivity.
  - apply (LoadString_invalid_hex (Ed25519PublicKey 16 [Byte.x01])
             (bytes_of "ab") (bytes_of "012")).
    + vm_compute. intros [H|[H|[]]]; discriminate.
    + vm_compute. intros [H|[H|[H|[]]]]; discriminate.
    + left. exists 1%nat. reflexivity.
Defined.

Lemma copy_shorter (dst src : list Byte.byte) :
  (length src <= length dst)%nat -> copy dst src = src ++ skipn (length src) dst.
Proof.
  intros Hle. unfold copy. apply firstn_all2.
  rewrite length_app, length_skipn. lia.
Qed.

(** X3: [LoadString] of a name without colon, a colon and the [%x] form of a key
    stores that key, and copies the name over the start of the algorithm: the
    bytes of the old algorithm beyond the name stay. *)
Theorem LoadString_hex spk (p key : list Byte.byte) :
  ~ In colon p ->
  LoadString spk (p ++ colon :: Sprintf_x key)
  = {| Algorithm := copy (Algorithm spk) p; Key := key |} /\
  ((length p <= length (Algorithm spk))%nat ->
   Algorithm (LoadString spk (p ++ colon :: Sprintf_x key))
   = p ++ skipn (length p) (Algorithm spk)).
Proof.
  intros Hp.
  assert (Hload : LoadString spk (p ++ colon :: Sprintf_x key)
                  = {| Algorithm := copy (Algorithm spk) p; Key := key |}).
  { rewrite (LoadString_parts spk p _ Hp (Sprintf_x_no_colon key)).
    rewrite DecodeString_Sprintf_x. reflexivity. }
  split; [exact Hload|].
  intros Hle. rewrite Hload. cbn [Algorithm]. apply copy_shorter. exact Hle.
Qed.

Lemma LoadString_hex_witness :
  LoadString (Ed25519PublicKey 16 [Byte.x01]) (bytes_of "ab:10ff")
  = {| Algorithm := SpecifierLit 16 (bytes_of "ab25519");
       Key := [Byte.x10; Byte.xff] |}.
Proof.
  destruct (LoadString_hex (Ed25519PublicKey 16 [Byte.x01]) (bytes_of "ab")
              [Byte.x10; Byte.xff])
    as [Hload _].
  - vm_compute. intros [H|[H|[]]]; discriminate.
  - exact Hload.
Defined.

Lemma skipn_repeat_zero (n m : nat) :
  skipn n (repeat Byte.x00 (n + m)) = repeat Byte.x00 m.
Proof. induction n as [|n IH]; [reflexivity | exact IH]. Qed.

(** A name no longer than a specifier, copied into the zero specifier, is
    the specifier the composite literal of that name denotes. *)
Lemma copy_zero_specifier (name : list Byte.byte) :
  (length name <= SpecifierLen)%nat ->
  copy (repeat Byte.x00 SpecifierLen) name = SpecifierLit SpecifierLen name.
Proof.
  intros Hle. unfold copy, SpecifierLit. rewrite repeat_length. f_equal. f_equal.
  replace SpecifierLen with (length name + (SpecifierLen - length name))%nat
    at 1 by lia.
  apply skipn_repeat_zero.
Qed.

(** X5: [LoadString] of ["ed25519:"] followed by the [%x] form of a key, into a
    zero [SiaPublicKey], is [Ed25519PublicKey] of that key. *)
Theorem LoadString_Ed25519 (pk : list Byte.byte) :
  (7 <= SpecifierLen)%nat ->
  LoadString (zeroKey SpecifierLen) (bytes_of "ed25519:" ++ Sprintf_x pk)
  = Ed25519PublicKey SpecifierLen pk.
Proof.
  intros Hlen.
  change (bytes_of "ed25519:" ++ Sprintf_x pk)
    with (bytes_of "ed25519" ++ colon :: Sprintf_x pk).
  rewrite (LoadString_parts _ (bytes_of "ed25519") _ ed25519_no_colon
             (Sprintf_x_no_colon pk)).
  rewrite DecodeString_Sprintf_x. unfold Ed25519PublicKey, SignatureEd25519.
  f_equal. apply copy_zero_specifier. exact Hlen.
Qed.

(** X4: [String] then [LoadString] into a zero key gives the key back, for an
    algorithm whose [String] holds no colon and, copied into a zero
    specifier, is the algorithm again. *)
Theorem LoadString_String (spk : SiaPublicKey) :
  ~ In colon (SpecifierString (Algorithm spk)) ->
  copy (repeat Byte.x00 SpecifierLen) (SpecifierString (Algorithm spk))
  = Algorithm spk ->
  LoadString (zeroKey SpecifierLen) (SiaPublicKey_String SpecifierString spk)
  = spk.
Proof.
  intros Hcolon Hcopy. unfold SiaPublicKey_String.
  change (bytes_of ":" ++ Sprintf_x (Key spk)) with (colon :: Sprintf_x (Key spk)).
  rewrite (LoadString_parts _ _ _ Hcolon (Sprintf_x_no_colon (Key spk))).
  rewrite DecodeString_Sprintf_x. cbn [Algorithm zeroKey]. rewrite Hcopy.
  destruct spk; reflexivity.
Qed.

End keys_facts.

Section keys_examples.
Import mach types keys.

Lemma LoadString_Ed25519_witness :
  LoadString (zeroKey 16) (bytes_of "ed25519:01fe")
  = Ed25519PublicKey 16 [Byte.x01; Byte.xfe].
Proof.
  apply (LoadString_Ed25519 16 [Byte.x01; Byte.xfe]). lia.
Defined.

Lemma LoadString_String_witness :
  LoadString (zeroKey 16)
    (SiaPublicKey_String upToZero (Ed25519PublicKey 16 [Byte.x01; Byte.xfe]))
  = Ed25519PublicKey 16 [Byte.x01; Byte.xfe].
Proof.
  apply (LoadString_String 16 upToZero (Ed25519PublicKey 16 [Byte.x01; Byte.xfe])).
  - vm_compute. intuition discriminate.
  - vm_compute. reflexivity.
Defined.

(** A specifier whose name holds a colon does not survive [String] and
    [LoadString]: the string has three parts and nothing is loaded. *)
Lemma LoadString_String_colon_name :
  LoadString (zeroKey 16)
    (SiaPublicKey_String upToZero
       {| Algorithm := SpecifierLit 16 (bytes_of "a:b"); Key := [Byte.x01] |})
  = zeroKey 16.
Proof. vm_compute. reflexivity. Qed.

End keys_examples.

(** ** Chain constants: [Validate], [GenesisBlock], [StartDifficulty] *)

Section genesis_facts.
Import mach big types consensus spec genesis.

Lemma length_zero_iff_nil {A : Type} (l : list A) :
  Nat.eqb (length l) 0 = true <-> l = [].
Proof. destruct l; simpl; split; intros; congruence. Qed.

(** X6: [Validate] accepts exactly the constants with a coin distribution, a
    block-stake allocation and a genesis timestamp not before 1231006505;
    otherwise it reports the first of the three checks that fails, in that
    order. *)
Theorem Validate_spec (c : AllConstants) :
  (Validate c = None <->
   GenesisCoinDistribution c <> [] /\ GenesisBlockStakeAllocation c <> [] /\
   1231006505 <= GenesisTimestamp (numeric c)) /\
  (GenesisCoinDistribution c = [] ->
   Validate c = Some "Invalid genesis coin distribution"%string) /\
  (GenesisCoinDistribution c <> [] -> GenesisBlockStakeAllocation c = [] ->
   Validate c = Some "Invalid genesis blockstake allocation"%string) /\
  (GenesisCoinDistribution c <> [] -> GenesisBlockStakeAllocation c <> [] ->
   GenesisTimestamp (numeric c) < 1231006505 ->
   Validate c = Some "Invalid genesis timestamp"%string).
Proof.
  unfold Validate.
  destruct (Nat.eqb (length (GenesisCoinDistribution c)) 0) eqn:Hcoin.
  { apply length_zero_iff_nil in Hcoin.
    repeat split; try discriminate; try contradiction; try reflexivity.
    intros (Hne & _). contradiction. }
  assert (Hcoin' : GenesisCoinDistribution c <> []).
  { intros Hnil. apply length_zero_iff_nil in Hnil. congruence. }
  destruct (Nat.eqb (length (GenesisBlockStakeAllocation c)) 0) eqn:Hbs.
  { apply length_zero_iff_nil in Hbs.
    repeat split; try discriminate; try contradiction; try reflexivity.
    intros (_ & Hne & _). contradiction. }
  assert (Hbs' : GenesisBlockStakeAllocation c <> []).
  { intros Hnil. apply length_zero_iff_nil in Hnil. congruence. }
  destruct (Z.ltb_spec (GenesisTimestamp (numeric c)) 1231006505) as [Hlt|Hge].
  - repeat split; try discriminate; try contradiction; try reflexivity.
    intros (_ & _ & Hge). lia.
  - repeat split; try assumption; try contradiction; try reflexivity; intros; lia.
Qed.

Section defaults.
Context (LoadUnlockHash : list Byte.byte -> UnlockHash)
        (UnlockTypeSingleSignature : Z).

Local Abbreviation Default := (DefaultAllConstants LoadUnlockHash UnlockTypeSingleSignature).

(** X7: the constants of every release but the testing one pass [Validate]. The
    testing constants, whose genesis timestamp is the clock minus [10^6] in
    64 bits, pass exactly when that difference is not before 1231006505: so
    also for a clock below [10^6], where the subtraction wraps. *)
Theorem DefaultAllConstants_Validate (release : string) (now : Timestamp) :
  (release <> "testing"%string -> Validate (Default release now) = None) /\
  (Validate (Default "testing" now) = None <->
   1231006505 <= uint64 (now - 1000000)) /\
  (0 <= now < 1000000 -> Validate (Default "testing" now) = None).
Proof.
  assert (Htesting : Validate (Default "testing" now) = None <->
                     1231006505 <= uint64 (now - 1000000)).
  { unfold Validate, DefaultAllConstants, DefaultChainConstants. simpl.
    destruct (Z.ltb_spec (uint64 (now - 1000000)) 1231006505);
      split; intros; try discriminate; try reflexivity; lia. }
  split; [|split; [exact Htesting|]].
  - intros Hne. unfold Validate, DefaultAllConstants, DefaultChainConstants.
    destruct (String.eqb release "dev") eqn:Hdev; [reflexivity|].
    destruct (String.eqb_spec release "testing") as [Heq|_]; [contradiction|].
    reflexivity.
  - intros Hnow. apply Htesting. unfold uint64.
    rewrite <- (Z.mod_unique (now - 1000000) (2 ^ 64) (-1) (now - 1000000 + 2 ^ 64));
      lia.
Qed.

End defaults.

Lemma fold_left_add_values {A : Type} (f : A -> Z) (l : list A) : forall acc,
  fold_left (fun a x => Currency_Add a (f x)) l acc
  = acc + fold_right Z.add 0 (map f l).
Proof.
  unfold Currency_Add.
  induction l as [|x l IH]; intros acc; simpl; [lia|]. rewrite IH. lia.
Qed.

Lemma sum_nonneg (l : list Z) : Forall (fun v => 0 <= v) l -> 0 <= fold_right Z.add 0 l.
Proof. induction 1; simpl; lia. Qed.

(** X8: [StartDifficulty] is never zero: with a block frequency that fits
    [int64] and block-stake values that are not negative, it is the block
    frequency times the total genesis block stake, and 1 when that product
    is zero. *)
Theorem StartDifficulty_positive (c : AllConstants) :
  0 <= BlockFrequency (numeric c) < 2 ^ 63 ->
  Forall (fun bs => 0 <= bso_Value bs) (GenesisBlockStakeAllocation c) ->
  GenesisBlockStakeCount c = total_block_stake c /\
  i (StartDifficulty c)
  = Z.max 1 (BlockFrequency (numeric c) * total_block_stake c) /\
  1 <= i (StartDifficulty c).
Proof.
  intros Hbf Hvalues.
  assert (Hcount : GenesisBlockStakeCount c = total_block_stake c).
  { unfold GenesisBlockStakeCount, total_block_stake, NewCurrency64.
    rewrite (fold_left_add_values bso_Value). apply Z.add_0_l. }
  assert (Hsum : 0 <= total_block_stake c).
  { unfold total_block_stake. apply sum_nonneg.
    apply Forall_forall. intros v Hin. apply list_elem_of_In in Hin.
    apply in_map_iff in Hin as (bs & <- & Hbs).
    rewrite Forall_forall in Hvalues. apply Hvalues, list_elem_of_In, Hbs. }
  assert (Hstart : i (StartDifficulty c)
                   = Z.max 1 (BlockFrequency (numeric c) * total_block_stake c)).
  { unfold StartDifficulty, NewDifficulty, Difficulty_Cmp, Currency_Big.
    cbv zeta. cbn [i]. rewrite Hcount, (int64_small _ Hbf).
    destruct (Z.compare_spec (BlockFrequency (numeric c) * total_block_stake c) 0)
      as [Heq|Hlt|Hgt]; cbn [Z.eqb i]; nia. }
  split; [exact Hcount|]. split; [exact Hstart | lia].
Qed.

End genesis_facts.

(** ** More on retargeting and the block bucket *)

Section consensus_more.
Import mach big types consensus spec.
Context {Target Body D1 D2 D3 : Type} {target : TargetOps Target}
  {storage : Storage Target Body D1 D2 D3}.
Context (cts : ChainConstants).

Local Abbreviation pBlock := (processedBlock Target Body D1 D2 D3).

Lemma targetAdjustmentBase_zero_parent blockMap (pb : pBlock) :
  ParentID (Block_ pb) = 0 -> targetAdjustmentBase cts blockMap pb = None.
Proof.
  intros Hz. unfold targetAdjustmentBase. cbv zeta. rewrite Hz.
  cbn [windowLoop]. cbn [Z.eqb negb]. rewrite andb_false_r.
  destruct (UnmarshalBlockHeadersParentIDAndTS _) as [p ts].
  rewrite Z.mul_0_r. reflexivity.
Qed.

Lemma setChildTarget_zero_parent_None blockMap (pb : pBlock) :
  ParentID (Block_ pb) = 0 -> Height pb mod (TargetWindow cts / 2) = 0 ->
  setChildTarget cts blockMap pb = None.
Proof.
  intros Hz Hmod. unfold setChildTarget. cbv zeta.
  destruct (Unmarshal _) as [parent err].
  destruct (DEBUG && err); [reflexivity|].
  destruct (TargetWindow cts / 2 =? 0); [reflexivity|].
  rewrite Hmod. cbn [Z.eqb negb].
  rewrite (targetAdjustmentBase_zero_parent blockMap pb Hz). reflexivity.
Qed.

(** X10: a node with the zero parent ID has an empty window: the expected time
    is zero, [big.NewRat] panics, and so do [setChildTarget] at a height that
    is a multiple of [TargetWindow/2] and [newChild] for such a block. *)
Theorem setChildTarget_zero_parent blockMap (pb : pBlock) :
  ParentID (Block_ pb) = 0 ->
  targetAdjustmentBase cts blockMap pb = None /\
  (Height pb mod (TargetWindow cts / 2) = 0 ->
   setChildTarget cts blockMap pb = None) /\
  (forall parent : pBlock,
     uint64 (Height parent + 1) mod (TargetWindow cts / 2) = 0 ->
     newChild cts blockMap parent (Block_ pb) = None).
Proof.
  intros Hz. split; [exact (targetAdjustmentBase_zero_parent blockMap pb Hz)|].
  split; [exact (setChildTarget_zero_parent_None blockMap pb Hz)|].
  intros parent Hmod. unfold newChild. cbv zeta.
  rewrite setChildTarget_zero_parent_None; [reflexivity | exact Hz | exact Hmod].
Qed.

Lemma setChildTarget_result blockMap (pb pb' : pBlock) :
  setChildTarget cts blockMap pb = Some pb' ->
  pb' = with_ChildTarget pb (ChildTarget pb').
Proof.
  unfold setChildTarget. cbv zeta.
  destruct (Unmarshal _) as [parent err].
  destruct (DEBUG && err); [discriminate|].
  destruct (TargetWindow cts / 2 =? 0); [discriminate|].
  destruct (negb _).
  - intros Heq. injection Heq as <-. reflexivity.
  - destruct (targetAdjustmentBase _ _ _); [|discriminate].
    intros Heq. injection Heq as <-. reflexivity.
Qed.

(** X11: [setChildTarget] changes the [ChildTarget] of the node and nothing
    else: the block, the height, the depth, the diffs and the checksum of the
    node it returns are those of the node it was given. *)
Theorem setChildTarget_frame blockMap (pb pb' : pBlock) :
  setChildTarget cts blockMap pb = Some pb' ->
  pb' = with_ChildTarget pb (ChildTarget pb') /\
  Block_ pb' = Block_ pb /\ Height pb' = Height pb /\ Depth pb' = Depth pb /\
  DiffsGenerated pb' = DiffsGenerated pb /\
  CoinOutputDiffs pb' = CoinOutputDiffs pb /\
  BlockStakeOutputDiffs pb' = BlockStakeOutputDiffs pb /\
  DelayedCoinOutputDiffs pb' = DelayedCoinOutputDiffs pb /\
  ConsensusChecksum pb' = ConsensusChecksum pb.
Proof.
  intros Hset. pose proof (setChildTarget_result blockMap pb pb' Hset) as Heq.
  split; [exact Heq|]. rewrite Heq. repeat split.
Qed.

Lemma Get_Put_eq (blockMap : gmap BlockID (list Byte.byte)) k v :
  Get (Put blockMap k v) k = v.
Proof. unfold Get, Put. rewrite lookup_insert_eq. reflexivity. Qed.

Lemma Get_Put_ne (blockMap : gmap BlockID (list Byte.byte)) k k' v :
  k' <> k -> Get (Put blockMap k v) k' = Get blockMap k'.
Proof. intros Hne. unfold Get, Put. rewrite lookup_insert_ne by congruence. reflexivity. Qed.

(** X12: [newChild] stores the encoding of the child under the ID of its block
    and leaves every other key of the bucket as it was; when the encoding
    decodes to the child again, the bucket holds the child for the blocks
    that name it as parent. *)
Theorem newChild_store blockMap (pb : pBlock) (b : Block Body) child blockMap' :
  newChild cts blockMap pb b = Some (child, blockMap') ->
  Get blockMap' (ID b) = Marshal child /\
  (forall k, k <> ID b -> blockMap' !! k = blockMap !! k) /\
  (Unmarshal (Marshal child) = (child, false) ->
   Unmarshal (Get blockMap' (ID b)) = (child, false)) /\
  child = with_ChildTarget
            {| Block_ := b; Height := uint64 (Height pb + 1);
               Depth := childDepth pb; ChildTarget := zeroTarget;
               DiffsGenerated := false; CoinOutputDiffs := [];
               BlockStakeOutputDiffs := []; DelayedCoinOutputDiffs := [];
               ConsensusChecksum := 0 |}
            (ChildTarget child).
Proof.
  unfold newChild. cbv zeta.
  destruct (setChildTarget _ _ _) as [child'|] eqn:Hset; [|discriminate].
  intros Heq. injection Heq as <- <-.
  split; [apply Get_Put_eq|]. split.
  - intros k Hne. unfold Put. apply lookup_insert_ne. congruence.
  - split; [intros Hrt; rewrite Get_Put_eq; exact Hrt|].
    exact (setChildTarget_result _ _ _ Hset).
Qed.

(** X13: clamping is idempotent and keeps the order of the ratios, for bounds in
    order. *)
Theorem clampTargetAdjustment_idempotent_monotone (r r1 r2 : Qc) :
  (MaxAdjustmentDown cts <= MaxAdjustmentUp cts)%Qc ->
  clampTargetAdjustment cts (clampTargetAdjustment cts r)
  = clampTargetAdjustment cts r /\
  ((r1 <= r2)%Qc ->
   (clampTargetAdjustment cts r1 <= clampTargetAdjustment cts r2)%Qc).
Proof.
  intros Hdu.
  assert (Hcases : forall x,
    ((MaxAdjustmentUp cts < x)%Qc /\
       clampTargetAdjustment cts x = MaxAdjustmentUp cts) \/
    ((x <= MaxAdjustmentUp cts)%Qc /\ (x < MaxAdjustmentDown cts)%Qc /\
       clampTargetAdjustment cts x = MaxAdjustmentDown cts) \/
    ((x <= MaxAdjustmentUp cts)%Qc /\ (MaxAdjustmentDown cts <= x)%Qc /\
       clampTargetAdjustment cts x = x)).
  { intros x. unfold clampTargetAdjustment.
    destruct (RatCmp x (MaxAdjustmentUp cts) >? 0) eqn:Hup.
    - left. apply RatCmp_gt in Hup. split; [exact Hup | reflexivity].
    - right.
      assert (Hle : (x <= MaxAdjustmentUp cts)%Qc).
      { apply Qcnot_lt_le. intros Hlt. apply RatCmp_gt in Hlt. congruence. }
      destruct (RatCmp x (MaxAdjustmentDown cts) <? 0) eqn:Hdown.
      + left. apply RatCmp_lt in Hdown. repeat split; assumption.
      + right. repeat split; [exact Hle|].
        apply Qcnot_lt_le. intros Hlt. apply RatCmp_lt in Hlt. congruence. }
  split.
  - destruct (Hcases r) as [(Hr & ->)|[(Hr1 & Hr2 & ->)|(Hr1 & Hr2 & ->)]].
    + destruct (Hcases (MaxAdjustmentUp cts))
        as [(H1 & _)|[(_ & H2 & _)|(_ & _ & ->)]];
        [exfalso; qc_order | exfalso; qc_order | reflexivity].
    + destruct (Hcases (MaxAdjustmentDown cts))
        as [(H1 & _)|[(_ & H2 & _)|(_ & _ & ->)]];
        [exfalso; qc_order | exfalso; qc_order | reflexivity].
    + destruct (Hcases r) as [(H1 & _)|[(_ & H2 & _)|(_ & _ & ->)]];
        [exfalso; qc_order | exfalso; qc_order | reflexivity].
  - intros H12.
    destruct (Hcases r1) as [(Ha & ->)|[(Ha1 & Ha2 & ->)|(Ha1 & Ha2 & ->)]];
      destruct (Hcases r2) as [(Hb & ->)|[(Hb1 & Hb2 & ->)|(Hb1 & Hb2 & ->)]];
      qc_order.
Qed.

Lemma nthAncestor_Put blockMap (pb : pBlock) (k : BlockID) v (n : nat) :
  (forall j, (1 <= j <= n)%nat -> nthAncestor blockMap pb j <> k) ->
  forall j, (j <= S n)%nat ->
  nthAncestor (Put blockMap k v) pb j = nthAncestor blockMap pb j.
Proof.
  intros Hfresh j. induction j as [|j IH]; intros Hj; [reflexivity|].
  destruct j as [|j]; [reflexivity|].
  rewrite !nthAncestor_step, (IH ltac:(lia)).
  unfold headerParent. rewrite Get_Put_ne; [reflexivity|].
  apply Hfresh. lia.
Qed.

(** X14: writing a key that is none of the first [TargetWindow] ancestors of a
    node does not change the adjustment computed for the node. *)
Theorem targetAdjustmentBase_frame blockMap (pb : pBlock) (k : BlockID) v :
  retarget_constants cts ->
  (forall j, (1 <= j <= Z.to_nat (TargetWindow cts))%nat ->
             nthAncestor blockMap pb j <> k) ->
  targetAdjustmentBase cts (Put blockMap k v) pb
  = targetAdjustmentBase cts blockMap pb.
Proof.
  intros Hc Hfresh.
  destruct (Z.eq_dec (ParentID (Block_ pb)) 0) as [Hz|Hnz].
  { rewrite !targetAdjustmentBase_zero_parent by exact Hz. reflexivity. }
  pose proof (nthAncestor_Put blockMap pb k v _ Hfresh) as Hsame.
  destruct (targetAdjustmentBase_eq cts (Put blockMap k v) pb Hc Hnz)
    as (ws' & Hws' & Hpos' & Heq').
  destruct (targetAdjustmentBase_eq cts blockMap pb Hc Hnz)
    as (ws & Hws & Hpos & Heq).
  assert (Hws'' : window_size cts blockMap pb ws').
  { destruct Hws' as (Hle & Hstop & Hmin). split; [exact Hle|]. split.
    - destruct Hstop as [Htw|Hzero]; [left; exact Htw|].
      right. rewrite <- Hsame by lia. exact Hzero.
    - intros idx Hidx. rewrite <- Hsame by lia. apply Hmin. exact Hidx. }
  assert (ws' = ws) by exact (window_size_unique cts _ _ _ _ Hws'' Hws).
  subst ws'. rewrite Heq', Heq. do 4 f_equal.
  destruct Hws as (Hle & _).
  unfold headerTimestamp. rewrite Hsame by lia.
  rewrite Get_Put_ne; [reflexivity|]. apply Hfresh. lia.
Qed.

(** X15: with the constants of any release, [setChildTarget] and [newChild]
    return for every block that names a parent, once the [DEBUG] check
    passes. *)
Theorem setChildTarget_default_returns (release : string) (now : Timestamp)
    blockMap (pb : pBlock) :
  ParentID (Block_ pb) <> 0 ->
  DEBUG && snd (Unmarshal (Get blockMap (ParentID (Block_ pb)))) = false ->
  is_Some (setChildTarget (DefaultChainConstants release now) blockMap pb) /\
  (forall parent : pBlock,
     is_Some (newChild (DefaultChainConstants release now) blockMap parent
                (Block_ pb))).
Proof.
  intros Hnz Hdebug.
  pose proof (DefaultChainConstants_retarget release now) as Hc.
  split.
  - unfold setChildTarget. cbv zeta.
    destruct (Unmarshal _) as [parent err]. cbn [snd] in Hdebug.
    rewrite Hdebug, (half_window_nonzero _ Hc).
    destruct (negb _); [eauto|].
    destruct (targetAdjustmentBase_eq _ blockMap pb Hc Hnz)
      as (ws & _ & _ & Hbase).
    rewrite Hbase. eauto.
  - intros parent.
    destruct (newChild_returns _ blockMap parent (Block_ pb) Hc Hnz Hdebug)
      as (child & blockMap' & Hnew).
    rewrite Hnew. eauto.
Qed.

End consensus_more.

(** ** More on signature validation *)

Section signatures_more.
Import mach big types spec.

Lemma sorted_last_grows (rest : list Z) : forall first,
  StronglySorted Z.lt (first :: rest) ->
  first + Z.of_nat (length rest) <= List.last rest first.
Proof.
  induction rest as [|e rest IH]; intros first Hs; [simpl; lia|].
  inversion Hs as [|? ? Hs' Hall]; subst.
  assert (Hlt : first < e) by (inversion Hall; assumption).
  rewrite last_cons_default. specialize (IH e Hs').
  cbn [length]. lia.
Qed.

(** X16: a list [sortedUnique] accepts for a bound [max] has at most [max]
    elements. *)
Theorem sortedUnique_length (elems : list Z) (max : Z) :
  sortedUnique elems max = true ->
  Forall is_uint64 elems -> 0 <= max -> is_int max ->
  Z.of_nat (length elems) <= max.
Proof.
  intros Hok Hrange Hpos Hint. destruct elems as [|e0 tl]; [simpl; lia|].
  unfold sortedUnique in Hok.
  rewrite (uint64_id max) in Hok by (unfold is_int, is_uint64 in *; lia).
  pose proof (sortedUnique_scan_spec tl e0) as Hscan.
  destruct (sortedUnique_scan e0 tl) as [b|]; [|discriminate].
  destruct Hscan as [Hs ->].
  destruct (Z.geb_spec (List.last tl e0) max) as [Hge|Hlt]; [discriminate|].
  pose proof (sorted_last_grows tl e0 Hs) as Hgrow.
  assert (H0 : 0 <= e0).
  { inversion Hrange as [|? ? He _]; subst. unfold is_uint64 in He. lia. }
  cbn [length]. lia.
Qed.

Lemma sortedUnique_length_witness :
  Z.of_nat (length [0; 2; 5]) <= 6.
Proof.
  apply (sortedUnique_length [0; 2; 5] 6); [reflexivity | | lia | unfold is_int; lia].
  repeat constructor; unfold is_uint64; lia.
Defined.

Context {U Sg : Type} {unlocker : Unlocker U Sg}.

(** An error of the coin loop is [ErrDoubleSpend] for an input that repeats
    a spent parent ID, or the error some [Unlock] call returned. *)
Lemma coinInputsLoop_Some t (ins : list (CoinInput U)) : forall spent index e,
  coinInputsLoop t spent index ins = Some e ->
  (e = ErrDoubleSpend /\
   exists pre x post, ins = pre ++ x :: post /\
     (ci_ParentID x ∈ spent \/ In (ci_ParentID x) (map ci_ParentID pre))) \/
  (exists k ci, ins !! k = Some ci /\
     Unlock (ci_Unlocker ci) (uint64 (Z.of_nat (index + k))) t = Some e).
Proof.
  induction ins as [|ci ins IH]; intros spent index e; simpl; [discriminate|].
  destruct (decide (ci_ParentID ci ∈ spent)) as [Hin|Hnin].
  - intros Heq. injection Heq as <-. left. split; [reflexivity|].
    exists [], ci, ins. split; [reflexivity | left; exact Hin].
  - destruct (Unlock (ci_Unlocker ci) (uint64 (Z.of_nat index)) t) as [e'|] eqn:Hu.
    + intros Heq. injection Heq as <-. right. exists 0%nat, ci.
      split; [reflexivity|]. rewrite Nat.add_0_r. exact Hu.
    + intros Hrest. apply IH in Hrest
        as [(He & pre & x & post & Hsplit & Hdup)|(k & cj & Hk & Huk)].
      * left. split; [exact He|]. exists (ci :: pre), x, post.
        split; [rewrite Hsplit; reflexivity|].
        destruct Hdup as [Hs|Hp].
        -- apply elem_of_union in Hs as [Hs|Hs].
           ++ apply elem_of_singleton in Hs. right. left. symmetry. exact Hs.
           ++ left. exact Hs.
        -- right. right. exact Hp.
      * right. exists (S k), cj. split; [exact Hk|].
        rewrite Nat.add_succ_r. exact Huk.
Qed.

Lemma blockStakeInputsLoop_Some t (ins : list (BlockStakeInput U)) :
  forall spent index e,
  blockStakeInputsLoop t spent index ins = Some e ->
  (e = ErrDoubleSpend /\
   exists pre x post, ins = pre ++ x :: post /\
     (bsi_ParentID x ∈ spent \/ In (bsi_ParentID x) (map bsi_ParentID pre))) \/
  (exists k bsi, ins !! k = Some bsi /\
     Unlock (bsi_Unlocker bsi) (uint64 (Z.of_nat (index + k))) t = Some e).
Proof.
  induction ins as [|bsi ins IH]; intros spent index e; simpl; [discriminate|].
  destruct (decide (bsi_ParentID bsi ∈ spent)) as [Hin|Hnin].
  - intros Heq. injection Heq as <-. left. split; [reflexivity|].
    exists [], bsi, ins. split; [reflexivity | left; exact Hin].
  - destruct (Unlock (bsi_Unlocker bsi) (uint64 (Z.of_nat index)) t) as [e'|] eqn:Hu.
    + intros Heq. injection Heq as <-. right. exists 0%nat, bsi.
      split; [reflexivity|]. rewrite Nat.add_0_r. exact Hu.
    + intros Hrest. apply IH in Hrest
        as [(He & pre & x & post & Hsplit & Hdup)|(k & bj & Hk & Huk)].
      * left. split; [exact He|]. exists (bsi :: pre), x, post.
        split; [rewrite Hsplit; reflexivity|].
        destruct Hdup as [Hs|Hp].
        -- apply elem_of_union in Hs as [Hs|Hs].
           ++ apply elem_of_singleton in Hs. right. left. symmetry. exact Hs.
           ++ left. exact Hs.
        -- right. right. exact Hp.
      * right. exists (S k), bj. split; [exact Hk|].
        rewrite Nat.add_succ_r. exact Huk.
Qed.

(** X17: every error [validSignatures] returns is either [ErrDoubleSpend] for a
    parent ID that does repeat among the coin inputs or among the block-stake
    inputs, or the error an [Unlock] call on one of the inputs returned. *)
Theorem validSignatures_error_source (t : Transaction U Sg)
    (currentHeight : BlockHeight) (e : error) :
  validSignatures t currentHeight = Some e ->
  (e = ErrDoubleSpend /\ (coin_double_spend t \/ blockstake_double_spend t)) \/
  (exists k ci, CoinInputs t !! k = Some ci /\
     Unlock (ci_Unlocker ci) (uint64 (Z.of_nat k)) t = Some e) \/
  (exists k bsi, BlockStakeInputs t !! k = Some bsi /\
     Unlock (bsi_Unlocker bsi) (uint64 (Z.of_nat k)) t = Some e).
Proof.
  unfold validSignatures.
  destruct (coinInputsLoop t ∅ 0 (CoinInputs t)) as [e'|] eqn:Hcoin.
  - intros Heq. injection Heq as <-.
    apply coinInputsLoop_Some in Hcoin
      as [(He & pre & x & post & Hsplit & [Hs|Hp])|(k & ci & Hk & Hu)].
    + exfalso. exact (not_elem_of_empty _ Hs).
    + left. split; [exact He|]. left. exists pre, x, post. split; assumption.
    + right. left. exists k, ci. split; assumption.
  - intros Hbs.
    apply blockStakeInputsLoop_Some in Hbs
      as [(He & pre & x & post & Hsplit & [Hs|Hp])|(k & bsi & Hk & Hu)].
    + exfalso. exact (not_elem_of_empty _ Hs).
    + left. split; [exact He|]. right. exists pre, x, post. split; assumption.
    + right. right. exists k, bsi. split; assumption.
Qed.

End signatures_more.

(** ** The genesis block *)

Section genesis_block_facts.
Import mach big types consensus spec genesis.
Context {U Sg Target D1 D2 D3 : Type} {unlocker : Unlocker U Sg}
  {target : TargetOps Target}
  {storage : Storage Target (list (Transaction U Sg)) D1 D2 D3}.

(** X9: the genesis block has the zero parent ID, the genesis timestamp and
    exactly one transaction, which has no coin input and no block-stake
    input, no miner fee and no arbitrary data, and whose outputs are the
    genesis allocations: that transaction passes [validSignatures] at every
    height, and a node for the genesis block at height 0 makes
    [setChildTarget] panic, for any chain constants. *)
Theorem GenesisBlock_facts (c : AllConstants) :
  ParentID (GenesisBlock (U := U) (Sg := Sg) c) = 0 /\
  Timestamp_ (GenesisBlock (U := U) (Sg := Sg) c) = GenesisTimestamp (numeric c) /\
  (exists tx : Transaction U Sg,
     BlockBody (GenesisBlock c) = [tx] /\
     CoinInputs tx = [] /\ BlockStakeInputs tx = [] /\
     CoinOutputs tx = GenesisCoinDistribution c /\
     BlockStakeOutputs tx = GenesisBlockStakeAllocation c /\
     MinerFees tx = [] /\ ArbitraryData tx = [] /\
     forall currentHeight, validSignatures tx currentHeight = None) /\
  (forall tx, In tx (BlockBody (GenesisBlock c)) ->
     CoinOutputs tx = GenesisCoinDistribution c /\
     BlockStakeOutputs tx = GenesisBlockStakeAllocation c /\
     forall currentHeight, validSignatures tx currentHeight = None) /\
  (forall (cts : ChainConstants) blockMap
          (pb : processedBlock Target (list (Transaction U Sg)) D1 D2 D3),
     Block_ pb = GenesisBlock c -> Height pb = 0 ->
     setChildTarget cts blockMap pb = None).
Proof.
  split; [reflexivity|]. split; [reflexivity|]. split; [|split].
  - eexists. split; [reflexivity|]. repeat split.
  - intros tx [<-|[]]. repeat split.
  - intros cts blockMap pb Hb Hh.
    apply setChildTarget_zero_parent_None.
    + rewrite Hb. reflexivity.
    + rewrite Hh. apply Zmod_0_l.
Qed.

End genesis_block_facts.

(** ** Examples for the theorems above *)

Section more_examples.
Import mach big types consensus spec model genesis.

Lemma StartDifficulty_positive_witness :
  i (StartDifficulty (DefaultAllConstants (fun _ => mkUnlockHash 0 0) 1 "testing" 0))
  = 10000.
Proof.
  destruct (StartDifficulty_positive
              (DefaultAllConstants (fun _ => mkUnlockHash 0 0) 1 "testing" 0))
    as (_ & Hstart & _).
  - vm_compute. split; [discriminate | reflexivity].
  - repeat constructor; vm_compute; discriminate.
  - rewrite Hstart. vm_compute. reflexivity.
Defined.

Lemma setChildTarget_zero_parent_witness :
  targetAdjustmentBase stdConstants chain_bucket chain_genesis = None /\
  setChildTarget stdConstants chain_bucket chain_genesis = None.
Proof.
  destruct (setChildTarget_zero_parent stdConstants chain_bucket chain_genesis
              eq_refl) as (Hbase & Hset & _).
  split; [exact Hbase | apply Hset; reflexivity].
Defined.

Lemma chain_node_retargeted :
  setChildTarget stdConstants chain_bucket chain_node
  = Some (with_ChildTarget chain_node 1000%N).
Proof. vm_compute. reflexivity. Qed.

Lemma setChildTarget_frame_witness :
  Height (with_ChildTarget chain_node 1000%N) = Height chain_node /\
  Depth (with_ChildTarget chain_node 1000%N) = Depth chain_node.
Proof.
  destruct (setChildTarget_frame stdConstants chain_bucket chain_node
              (with_ChildTarget chain_node 1000%N) chain_node_retargeted)
    as (_ & _ & Hheight & Hdepth & _).
  split; [exact Hheight | exact Hdepth].
Defined.

Lemma child_block_stored :
  newChild stdConstants chain_bucket chain_parent child_block
  = Some (stored_child, Put chain_bucket 3 (Marshal stored_child)).
Proof. vm_compute. reflexivity. Qed.

Lemma newChild_store_witness :
  Unmarshal (Get (Put chain_bucket 3 (Marshal stored_child)) 3)
  = (stored_child, false) /\
  Put chain_bucket 3 (Marshal stored_child) !! 2 = chain_bucket !! 2.
Proof.
  destruct (newChild_store stdConstants chain_bucket chain_parent child_block
              stored_child _ child_block_stored)
    as (_ & Hother & Hdecode & _).
  split.
  - apply Hdecode. vm_compute. reflexivity.
  - apply Hother. vm_compute. discriminate.
Defined.

Lemma clampTargetAdjustment_idempotent_monotone_witness :
  clampTargetAdjustment stdConstants
    (clampTargetAdjustment stdConstants (NewRat' 7 1))
  = clampTargetAdjustment stdConstants (NewRat' 7 1) /\
  (clampTargetAdjustment stdConstants (NewRat' 1 12)
   <= clampTargetAdjustment stdConstants (NewRat' 7 1))%Qc.
Proof.
  destruct (clampTargetAdjustment_idempotent_monotone stdConstants
              (NewRat' 7 1) (NewRat' 1 12) (NewRat' 7 1)
              (proj2 (DefaultChainConstants_clamp_bounds "standard" 0)))
    as [Hidem Hmono].
  split; [exact Hidem|]. apply Hmono. vm_compute. discriminate.
Defined.

(** Beyond genesis the recorded parent is the zero ID, for good. *)
Lemma chain_ancestors (j : nat) :
  nthAncestor chain_bucket chain_node (S (S (S j))) = 0.
Proof.
  induction j as [|j IH]; [vm_compute; reflexivity|].
  rewrite nthAncestor_step, IH. vm_compute. reflexivity.
Qed.

Lemma chain_ancestors_not_99 (j : nat) :
  (1 <= j <= Z.to_nat (TargetWindow stdConstants))%nat ->
  nthAncestor chain_bucket chain_node j <> 99.
Proof.
  intros Hj. destruct j as [|[|[|j]]]; [lia | | |].
  - vm_compute. discriminate.
  - vm_compute. discriminate.
  - rewrite chain_ancestors. discriminate.
Qed.

Lemma targetAdjustmentBase_frame_witness :
  targetAdjustmentBase stdConstants (Put chain_bucket 99 []) chain_node
  = targetAdjustmentBase stdConstants chain_bucket chain_node.
Proof.
  apply (targetAdjustmentBase_frame stdConstants chain_bucket chain_node 99 []).
  - exact (DefaultChainConstants_retarget "standard" 0).
  - exact chain_ancestors_not_99.
Defined.

Lemma setChildTarget_default_returns_witness :
  is_Some (setChildTarget (DefaultChainConstants "dev" 0) chain_bucket chain_node).
Proof.
  apply (setChildTarget_default_returns "dev" 0 chain_bucket chain_node).
  - vm_compute. discriminate.
  - reflexivity.
Defined.

Lemma validSignatures_error_source_witness :
  (ErrMissingSignatures = ErrDoubleSpend /\
   (coin_double_spend tx_unsigned_then_repeat
    \/ blockstake_double_spend tx_unsigned_then_repeat)) \/
  (exists k ci, CoinInputs tx_unsigned_then_repeat !! k = Some ci /\
     Unlock (ci_Unlocker ci) (uint64 (Z.of_nat k)) tx_unsigned_then_repeat
     = Some ErrMissingSignatures) \/
  (exists k bsi, BlockStakeInputs tx_unsigned_then_repeat !! k = Some bsi /\
     Unlock (bsi_Unlocker bsi) (uint64 (Z.of_nat k)) tx_unsigned_then_repeat
     = Some ErrMissingSignatures).
Proof.
  apply (validSignatures_error_source tx_unsigned_then_repeat 0
           ErrMissingSignatures).
  vm_compute. reflexivity.
Defined.

End more_examples.
